(** * fairseq/modules/reducer.py: the dimension reducer

    A shallow embedding of [Reducer] and of its three registered strategies
    ([max], [attn], [softmax]), with the properties of its specification.

    Tensors are nested lists; the torch operations the module calls are
    modelled in [Torch].  Entries are float32 values: a finite number, an
    infinity or NaN.  The result of an addition, product or quotient of
    finite entries is rounded, and overflows to an infinity, by the
    rounding function of a [Float32] arithmetic; the properties are proved
    for every such arithmetic, the ones that depend on rounding for every
    arithmetic that obeys the laws [IEEE].  Signed zeros are not modelled.
    The errors torch raises on shapes are modelled where a rectangular
    input reaches them: [cat] of rows of different shapes, [max] over an
    empty axis, a mask that cannot be broadcast, a weight matrix of the
    wrong width, an index out of range.  Python exceptions are values of [exn]; a call returns
    its outcome together with the incremental state it leaves behind. *)

From Stdlib Require Import Reals Lra.
From stdpp Require Import gmap strings list fin_maps.

Local Open Scope R_scope.

(** ** Exceptions and outcomes *)

Inductive exn :=
  | KeyError
  | TypeError
  | IndexError
  | RuntimeError
  | AssertionError
  | NotImplementedError
  | ZeroDivisionError.

Inductive result (A : Type) :=
  | Ok (a : A)
  | Raise (e : exn).
Arguments Ok {A} a.
Arguments Raise {A} e.

#[global] Instance result_ret : MRet result := λ A a, Ok a.

#[global] Instance result_bind : MBind result := λ A B f m,
  match m with
  | Ok a => f a
  | Raise e => Raise e
  end.

Fixpoint rfold {A B} (f : B → A → result B) (l : list A) (b : B) : result B :=
  match l with
  | [] => Ok b
  | a :: l' => b' ← f b a; rfold f l' b'
  end.

(** ** The torch operations used by the module *)

Module Torch.

(** Tensor entries: a finite number, an infinity, or NaN. *)
Inductive scalar :=
  | NaN
  | NInf
  | Fin (r : R)
  | PInf.

Definition is_nan (a : scalar) : bool :=
  match a with NaN => true | _ => false end.

Definition is_fin (a : scalar) : Prop :=
  match a with Fin _ => True | _ => False end.

Definition fneg (a : scalar) : scalar :=
  match a with
  | NaN => NaN
  | NInf => PInf
  | Fin r => Fin (- r)
  | PInf => NInf
  end.

(** The order of the entries that are not NaN. *)
Definition fle (a b : scalar) : Prop :=
  match a, b with
  | NaN, _ | _, NaN => False
  | NInf, _ | _, PInf => True
  | Fin x, Fin y => x <= y
  | _, _ => False
  end.

(** A float32 arithmetic: [round r] is the entry an operation returns when
    its result on finite operands is the real [r], a finite number or,
    where the result overflows, an infinity; [expf r] is what the
    exponential of the library returns on the finite argument [r]. *)
Class Float32 := {
  round : R → scalar;
  expf : R → scalar;
}.

(** A finite entry that rounding leaves as it is: a float32 number. *)
Definition is_float {F : Float32} (a : scalar) : Prop :=
  match a with Fin r => round r = Fin r | _ => False end.

(** A float32 number between 0 and 1. *)
Definition probability {F : Float32} (a : scalar) : Prop :=
  match a with Fin r => 0 <= r <= 1 ∧ round r = Fin r | _ => False end.

(** What the properties that depend on rounding assume of the arithmetic:
    rounding never gives NaN, is monotone, and leaves its own finite
    results, 0 and 1 as they are; the exponential maps 0 to 1 and a
    number that is not positive to a float32 number between 0 and 1. *)
Class IEEE (F : Float32) : Prop := {
  round_not_nan : ∀ r, is_nan (round r) = false;
  round_monotone : ∀ r r', r <= r' → fle (round r) (round r');
  round_idempotent : ∀ r r', round r = Fin r' → round r' = Fin r';
  round_0 : round 0 = Fin 0;
  round_1 : round 1 = Fin 1;
  expf_0 : expf 0 = Fin 1;
  expf_nonpos : ∀ r, r <= 0 → probability (expf r);
}.

(** The arithmetic of the reals: nothing is rounded, nothing overflows. *)
Definition ideal : Float32 := {| round := Fin; expf := λ r, Fin (exp r) |}.

Definition fadd {F : Float32} (a b : scalar) : scalar :=
  match a, b with
  | NaN, _ | _, NaN => NaN
  | PInf, NInf | NInf, PInf => NaN
  | PInf, _ | _, PInf => PInf
  | NInf, _ | _, NInf => NInf
  | Fin x, Fin y => round (x + y)
  end.

Definition fsub {F : Float32} (a b : scalar) : scalar := fadd a (fneg b).

(** The sign of a real, for products and quotients with an infinity. *)
Inductive sign := Neg | Zero | Pos.

Definition sgn (r : R) : sign :=
  match total_order_T r 0 with
  | inleft (left _) => Neg
  | inleft (right _) => Zero
  | inright _ => Pos
  end.

Definition signed_inf (s : sign) (flip : bool) : scalar :=
  match s, flip with
  | Zero, _ => NaN
  | Pos, false | Neg, true => PInf
  | Pos, true | Neg, false => NInf
  end.

Definition fmul {F : Float32} (a b : scalar) : scalar :=
  match a, b with
  | NaN, _ | _, NaN => NaN
  | Fin x, Fin y => round (x * y)
  | Fin x, PInf | PInf, Fin x => signed_inf (sgn x) false
  | Fin x, NInf | NInf, Fin x => signed_inf (sgn x) true
  | PInf, PInf | NInf, NInf => PInf
  | PInf, NInf | NInf, PInf => NInf
  end.

Definition fdiv {F : Float32} (a b : scalar) : scalar :=
  match a, b with
  | NaN, _ | _, NaN => NaN
  | Fin x, Fin y =>
      match sgn y with
      | Zero => signed_inf (sgn x) false
      | _ => round (x / y)
      end
  | Fin _, (PInf | NInf) => Fin 0
  | PInf, Fin y => signed_inf (match sgn y with Zero => Pos | s => s end) false
  | NInf, Fin y => signed_inf (match sgn y with Zero => Pos | s => s end) true
  | (PInf | NInf), (PInf | NInf) => NaN
  end.

Definition fexp {F : Float32} (a : scalar) : scalar :=
  match a with
  | NaN => NaN
  | NInf => Fin 0
  | Fin r => expf r
  | PInf => PInf
  end.

(** [max] of two entries; a NaN operand gives NaN.  No rounding: the
    result is one of the operands. *)
Definition fmax (a b : scalar) : scalar :=
  match a, b with
  | NaN, _ | _, NaN => NaN
  | PInf, _ | _, PInf => PInf
  | NInf, c | c, NInf => c
  | Fin x, Fin y => Fin (Rmax x y)
  end.

(** A tensor of rank [n] is a list nested [n] deep; torch tensors are
    rectangular, which [has_shape] states.  A tensor with an empty axis
    keeps no record of the sizes of the axes below it. *)
Fixpoint tensor (A : Type) (n : nat) : Type :=
  match n with
  | O => A
  | S k => list (tensor A k)
  end.

(** The ranks the module works with, spelled out. *)
Abbreviation tensor1 := (list scalar).
Abbreviation tensor2 := (list (list scalar)).
Abbreviation tensor3 := (list (list (list scalar))).
Abbreviation tensor4 := (list (list (list (list scalar)))).
Abbreviation byte_mask := (list (list bool)).

Fixpoint has_shape {A} (n : nat) (sh : list nat) : tensor A n → Prop :=
  match n with
  | O => λ _, sh = []
  | S k => λ t : list (tensor A k),
      match sh with
      | [] => False
      | d :: sh' => length t = d ∧ Forall (has_shape k sh') t
      end
  end.

(** [x.size()], read off the first entry along every axis. *)
Fixpoint shape {A} (n : nat) : tensor A n → list nat :=
  match n with
  | O => λ _, []
  | S k => λ t : list (tensor A k),
      length t :: match t with
                  | [] => repeat 0%nat k
                  | r :: _ => shape k r
                  end
  end.

(** An elementwise operation on two tensors of one shape. *)
Fixpoint tmap2 {A B C} (f : A → B → C) (n : nat)
  : tensor A n → tensor B n → tensor C n :=
  match n with
  | O => f
  | S k => zip_with (tmap2 f k)
  end.

(** [x[i]] along the first axis. *)
Definition index {A} (l : list A) (i : nat) : result A :=
  match l !! i with
  | Some a => Ok a
  | None => Raise IndexError
  end.

(** [torch.cat((a, b), dim=0)]: the sizes of the other axes must agree. *)
Definition cat {A} (k : nat) (a b : tensor A (S k)) : result (tensor A (S k)) :=
  match a, b with
  | ra :: _, rb :: _ =>
      if decide (shape k ra = shape k rb)
      then Ok (@app (tensor A k) a b) else Raise RuntimeError
  | _, _ => Ok (@app (tensor A k) a b)
  end.

(** [x.unsqueeze(0)] and [x.unsqueeze(-1)]. *)
Definition unsqueeze0 {A} {n : nat} (x : tensor A n) : tensor A (S n) :=
  @cons (tensor A n) x [].

Fixpoint unsqueeze_last {A} (n : nat) : tensor A n → tensor A (S n) :=
  match n with
  | O => λ a, [a]
  | S k => map (unsqueeze_last k)
  end.

(** [m.transpose(0, 1)] of a matrix. *)
Fixpoint transpose {A} (m : list (list A)) : list (list A) :=
  match m with
  | [] => []
  | r :: rs =>
      match rs with
      | [] => map (λ a, [a]) r
      | _ :: _ => zip_with cons r (transpose rs)
      end
  end.

(** [x.masked_fill(mask, v)], out of place: [x] and the mask are broadcast
    against each other.  Along every axis the two have the same size, or
    one of them has size one and is repeated along the axis. *)
Fixpoint masked_fill {A} (n : nat)
  : tensor A n → tensor bool n → A → result (tensor A n) :=
  match n with
  | O => λ x m v, Ok (if m then v else x)
  | S k => λ (x : list (tensor A k)) (m : list (tensor bool k)) v,
      if decide (length m = length x)
      then mapM (λ p, masked_fill k p.1 p.2 v) (zip x m)
      else match m with
           | [m0] => mapM (λ xi, masked_fill k xi m0 v) x
           | _ =>
               match x with
               | [x0] => mapM (λ mi, masked_fill k x0 mi v) m
               | _ => Raise RuntimeError
               end
           end
  end.

(** Reductions along the first axis.  [max] has no value on an empty axis. *)
Definition max_dim0 (n : nat) (x : list (tensor scalar n)) : result (tensor scalar n) :=
  match x with
  | [] => Raise IndexError
  | r :: rs => Ok (foldl (tmap2 fmax n) r rs)
  end.

Definition tzero (n : nat) : tensor scalar n :=
  match n with
  | O => Fin 0
  | S _ => []
  end.

Definition sum_dim0 {F : Float32} (n : nat) (x : list (tensor scalar n))
  : tensor scalar n :=
  match x with
  | [] => tzero n
  | r :: rs => foldl (tmap2 fadd n) r rs
  end.

(** [F.softmax(x, dim=0)]: the entries along the axis are shifted by their
    maximum, exponentiated and divided by their sum. *)
Definition softmax_dim0 {F : Float32} (n : nat) (x : list (tensor scalar n))
  : list (tensor scalar n) :=
  match x with
  | [] => []
  | r :: rs =>
      let m := foldl (tmap2 fmax n) r rs in
      let e := map (λ xi, tmap2 (λ a b, fexp (fsub a b)) n xi m) x in
      let s := sum_dim0 n e in
      map (λ ei, tmap2 fdiv n ei s) e
  end.

(** The same reductions along the second axis. *)
Definition max_dim1 (n : nat) (x : list (list (tensor scalar n)))
  : result (list (tensor scalar n)) := mapM (max_dim0 n) x.

Definition sum_dim1 {F : Float32} (n : nat) (x : list (list (tensor scalar n)))
  : list (tensor scalar n) := map (sum_dim0 n) x.

Definition softmax_dim1 {F : Float32} (n : nat) (x : list (list (tensor scalar n)))
  : list (list (tensor scalar n)) := map (softmax_dim0 n) x.

(** [F.linear(x, w)]: every vector along the last axis of [x] is multiplied
    by the transpose of [w]. *)
Definition dot {F : Float32} (v w : list scalar) : scalar :=
  foldr fadd (Fin 0) (zip_with fmul v w).

Fixpoint linear {F : Float32} (n : nat)
  : tensor scalar (S n) → list (list scalar) → result (tensor scalar (S n)) :=
  match n with
  | O => λ v w,
      if decide (Forall (λ row, length row = length v) w)
      then Ok (map (dot v) w)
      else Raise RuntimeError
  | S k => λ x w, mapM (λ xi, linear k xi w) x
  end.

(** [torch.isnan(x).byte().any()]. *)
Fixpoint any_nan (n : nat) : tensor scalar n → bool :=
  match n with
  | O => is_nan
  | S k => existsb (any_nan k)
  end.

(** [x.index_select(2, order)] on a tensor of rank four. *)
Definition index_select2 (x : tensor4) (order : list nat) : result (tensor4) :=
  mapM (mapM (λ xs : tensor2, mapM (index xs) order)) x.

(** A tensor of any rank, as a Python value. *)
Record Tensor := mkTensor { rank : nat; data : tensor scalar rank }.

End Torch.

(** ** The incremental-state helpers of [fairseq.utils] *)

Module Utils.
Import Torch.

(** What a module saves: a Python dict from buffer names to tensors. *)
Abbreviation saved_state := (gmap string (tensor4)).

(** Modelled from the spec: [fairseq/utils.py] is not among the sources.
    The incremental state is a mutable container shared by one decoding
    session, "keyed first by a stable identity of the owning Reducer
    instance, then by a fixed buffer name"; an instance is identified by a
    number. *)
Abbreviation container := (gmap (nat * string) saved_state).

(** Modelled from the spec: the read half of the container's read/write
    contract; nothing is found in no container ([None]) or under a key
    never written. *)
Definition get_incremental_state (module : nat)
  (incremental_state : option container) (key : string) : option saved_state :=
  match incremental_state with
  | None => None
  | Some st => st !! (module, key)
  end.

(** Modelled from the spec: the write half; writing to no container does
    nothing. *)
Definition set_incremental_state (module : nat)
  (incremental_state : option container) (key : string) (value : saved_state)
  : option container :=
  match incremental_state with
  | None => None
  | Some st => Some (<[(module, key) := value]> st)
  end.

End Utils.

(** ** class Reducer *)

Module Reducer.
Import Torch Utils.

(** [mask] is a byte tensor of rank two; a call receives the caller's
    incremental state, or [None], and leaves the state it returns. *)
Abbreviation forward_fn :=
  (tensor4 → option (byte_mask) → option container
   → result Tensor * option container)%type.

(** [get_incremental_state(...) or {}]: an empty dict is falsy.  The value
    is a dict in every case, never [None]. *)
Definition _get_input_buffer (self : nat) (incremental_state : option container)
  : option saved_state :=
  match get_incremental_state self incremental_state "repr_state" with
  | Some d => if decide (size d = 0%nat) then Some ∅ else Some d
  | None => Some ∅
  end.

Definition _set_input_buffer (self : nat) (incremental_state : option container)
  (buffer : saved_state) : option container :=
  set_incremental_state self incremental_state "repr_state" buffer.

Definition _prepare_repr (self : nat) (x : tensor4)
  (incremental_state : option container)
  : result (tensor4) * option container :=
  match incremental_state with
  | Some _ =>
      match _get_input_buffer self incremental_state with
      | Some saved_state =>
          match
            match saved_state !! "prev_repr" with
            | Some prev_repr => cat 3 prev_repr x
            | None => Ok x
            end
          with
          | Ok x =>
              let saved_state := <["prev_repr" := x]> saved_state in
              (Ok x, _set_input_buffer self incremental_state saved_state)
          | Raise e => (Raise e, incremental_state)
          end
      | None => (Raise TypeError, incremental_state)
      end
  | None => (Ok x, incremental_state)
  end.

(** The loop of [reorder_incremental_state] over the keys of the buffer:
    the buffer as updated so far, and the exception that stopped it. *)
Fixpoint reorder_keys (keys : list string) (new_order : list nat)
  (input_buffer : saved_state) : saved_state * option exn :=
  match keys with
  | [] => (input_buffer, None)
  | k :: keys' =>
      match input_buffer !! k with
      | None => (input_buffer, Some KeyError)
      | Some v =>
          match index_select2 v new_order with
          | Ok v' => reorder_keys keys' new_order (<[k := v']> input_buffer)
          | Raise e => (input_buffer, Some e)
          end
      end
  end.

Definition reorder_incremental_state (self : nat)
  (incremental_state : option container) (new_order : list nat)
  : result unit * option container :=
  match _get_input_buffer self incremental_state with
  | Some input_buffer =>
      match reorder_keys (map fst (map_to_list input_buffer)) new_order input_buffer with
      | (input_buffer, None) =>
          (Ok (), _set_input_buffer self incremental_state input_buffer)
      | (input_buffer, Some e) =>
          (* the assignments made so far went to the dict the container holds *)
          (Raise e, _set_input_buffer self incremental_state input_buffer)
      end
  | None => (Ok (), incremental_state)
  end.

(** *** [max] *)

(** [mask.transpose(0, 1).unsqueeze(0).unsqueeze(-1)]: from [B x S] to
    [1 x S x B x 1]. *)
Definition expand_mask (mask : byte_mask) : list (list (list (list bool))) :=
  unsqueeze_last 3 (unsqueeze0 (n:=2) (transpose mask)).

Definition max_reduce_src : forward_fn := λ x mask incremental_state,
  (x ← match mask with
       | Some mask => masked_fill 4 x (expand_mask mask) NInf
       | None => Ok x
       end;
   x ← max_dim1 2 x;
   Ok (mkTensor 3 x),
   incremental_state).

Definition max_reduce_tgt (self : nat) : forward_fn := λ x mask incremental_state,
  match _prepare_repr self x incremental_state with
  | (Ok x, incremental_state) =>
      match mask with
      | None =>
          (* decoding *)
          (x ← max_dim0 3 x; Ok (mkTensor 3 x), incremental_state)
      | Some _ =>
          (* training *)
          (out ← rfold (λ (out : tensor4) (i : nat),
                    xi ← index x i;
                    oi ← index out (i - 1);
                    cat 3 out (unsqueeze0 (tmap2 fmax 3 xi oi)))
                 (seq 1 (length x - 1)) (take 1 x);
           Ok (mkTensor 4 out),
           incremental_state)
      end
  | (Raise e, incremental_state) => (Raise e, incremental_state)
  end.

(** *** [attn] *)

(** The local [prob] of [reduce_src]: the softmax over the source axis of
    the masked logits. *)
Definition attn_prob {F : Float32} (weights : tensor2) (x : tensor4)
  (mask : option (byte_mask)) : result (tensor4) :=
  w ← linear 3 x weights;
  w ← match mask with
      | Some mask => masked_fill 4 w (expand_mask mask) NInf
      | None => Ok w
      end;
  Ok (softmax_dim1 2 w).

Definition attn_reduce_src {F : Float32} (weights : tensor2) : forward_fn :=
  λ x mask incremental_state,
  (prob ← attn_prob weights x mask;
   if any_nan 4 prob then Raise AssertionError
   else Ok (mkTensor 3 (sum_dim1 2 (tmap2 fmul 4 prob x))),
   incremental_state).

Definition attn_reduce_tgt (method : string) : forward_fn :=
  λ x mask incremental_state, (Raise NotImplementedError, incremental_state).

(** *** [softmax] *)

(** The local [prob] of [reduce_src]: the softmax over the source axis of
    the masked input. *)
Definition softmax_prob {F : Float32} (x : tensor4) (mask : option (byte_mask))
  : result (tensor4) :=
  w ← match mask with
      | Some mask => masked_fill 4 x (expand_mask mask) NInf
      | None => Ok x
      end;
  Ok (softmax_dim1 2 w).

Definition softmax_reduce_src {F : Float32} : forward_fn := λ x mask incremental_state,
  (prob ← softmax_prob x mask;
   if any_nan 4 prob then Raise AssertionError
   else
     let x := sum_dim1 2 (tmap2 fmul 4 prob x) in
     if any_nan 3 x then Raise AssertionError else Ok (mkTensor 3 x),
   incremental_state).

Definition softmax_reduce_tgt {F : Float32} (self : nat) : forward_fn :=
  λ x mask incremental_state,
  match _prepare_repr self x incremental_state with
  | (Ok x, incremental_state) =>
      match mask with
      | None =>
          (* decoding *)
          (let prob := softmax_dim0 3 x in
           if any_nan 4 prob then Raise AssertionError
           else Ok (mkTensor 3 (sum_dim0 3 (tmap2 fmul 4 prob x))),
           incremental_state)
      | Some _ =>
          (* training *)
          (out ← rfold (λ (out : tensor4) (i : nat),
                    let xi := take (i + 1) x in
                    cat 3 out (unsqueeze0 (sum_dim0 3 (tmap2 fmul 4 (softmax_dim0 3 xi) xi))))
                 (seq 1 (length x - 1)) (take 1 x);
           Ok (mkTensor 4 out),
           incremental_state)
      end
  | (Raise e, incremental_state) => (Raise e, incremental_state)
  end.

(** *** Registration and construction *)

(** The arguments after [method] and [reduce_src]: [flags], when given, and
    the values [nn.init.normal_] draws for the entries of [self.weights]. *)
Record Namespace := { decoder_model_dim : nat }.

Record ctor_args := { flags : option Namespace; normal_ : nat → nat → R }.

(** A registered function receives the instance under construction (its
    identity, [method] and [reduce_src]) and the remaining arguments; it
    may set [self.weights] and returns the forward function. *)
Abbreviation factory :=
  (nat → string → bool → ctor_args
   → result (option (tensor2) * forward_fn))%type.

Definition max : factory := λ self method reduce_src args,
  Ok (None, if reduce_src then max_reduce_src else max_reduce_tgt self).

Definition attn {F : Float32} : factory := λ self method reduce_src args,
  match flags args with
  | None => Raise TypeError
  | Some flags =>
      let d := decoder_model_dim flags in
      (* [std=flags.decoder_model_dim ** -0.5]: zero has no negative power *)
      if decide (d = 0%nat) then Raise ZeroDivisionError
      else
        let weights :=
          map (λ i, map (λ j, Fin (normal_ args i j)) (seq 0 d)) (seq 0 d) in
        Ok (Some weights,
            if reduce_src then attn_reduce_src weights else attn_reduce_tgt method)
  end.

Definition softmax {F : Float32} : factory := λ self method reduce_src args,
  Ok (None, if reduce_src then softmax_reduce_src else softmax_reduce_tgt self).

Definition register_reducer (name : string) (fn : factory)
  (registry : gmap string factory) : gmap string factory :=
  <[name := fn]> registry.

Definition VALID_REDUCER {F : Float32} : gmap string factory :=
  register_reducer "softmax" softmax
    (register_reducer "attn" attn
      (register_reducer "max" max ∅)).

Record instance := {
  ident : nat;
  method : string;
  reduce_src : bool;
  weights : option (tensor2);
  customize_forward : forward_fn;
}.

Definition __init__ {F : Float32} (self : nat) (method : string) (reduce_src : bool)
  (args : ctor_args) : result instance :=
  match VALID_REDUCER !! method with
  | None => Raise KeyError
  | Some fn =>
      '(weights, customize_forward) ← fn self method reduce_src args;
      Ok {| ident := self; method := method; reduce_src := reduce_src;
            weights := weights; customize_forward := customize_forward |}
  end.

Definition forward (self : instance) : forward_fn := customize_forward self.

End Reducer.

(** ** Vocabulary of the properties *)

Module Session.
Import Torch Utils Reducer.

(** The tensor this instance has buffered in the container, if any. *)
Definition buffer (self : nat) (incremental_state : option container)
  : option (tensor4) :=
  get_incremental_state self incremental_state "repr_state" ≫= (.!! "prev_repr").

(** One decoding session: the forward function is called on each step's
    input in turn, without a mask, on the state the call before it left.
    The session ends at the first exception. *)
Fixpoint decode (f : forward_fn) (steps : list (tensor4))
  (incremental_state : option container) : result (list Tensor) * option container :=
  match steps with
  | [] => (Ok [], incremental_state)
  | x :: steps' =>
      match f x None incremental_state with
      | (Ok y, incremental_state) =>
          match decode f steps' incremental_state with
          | (Ok ys, incremental_state) => (Ok (y :: ys), incremental_state)
          | (Raise e, incremental_state) => (Raise e, incremental_state)
          end
      | (Raise e, incremental_state) => (Raise e, incremental_state)
      end
  end.

(** Successive calls of [_prepare_repr] on one container. *)
Fixpoint prepare_all (self : nat) (xs : list (tensor4))
  (incremental_state : option container)
  : result (list (tensor4)) * option container :=
  match xs with
  | [] => (Ok [], incremental_state)
  | x :: xs' =>
      match _prepare_repr self x incremental_state with
      | (Ok y, incremental_state) =>
          match prepare_all self xs' incremental_state with
          | (Ok ys, incremental_state) => (Ok (y :: ys), incremental_state)
          | (Raise e, incremental_state) => (Raise e, incremental_state)
          end
      | (Raise e, incremental_state) => (Raise e, incremental_state)
      end
  end.

(** What the successive calls return when each concatenation succeeds:
    the running concatenations of the buffer [prev] with the inputs. *)
Fixpoint running {A} (prev : list A) (xs : list (list A)) : list (list A) :=
  match xs with
  | [] => []
  | x :: xs' => (prev ++ x) :: running (prev ++ x) xs'
  end.

(** The entry of a tensor at a position (one index per axis). *)
Fixpoint tget {A} (n : nat) (p : list nat) : tensor A n → option A :=
  match n with
  | O => λ a, match p with [] => Some a | _ :: _ => None end
  | S k => λ t : list (tensor A k),
      match p with [] => None | i :: p' => t !! i ≫= tget k p' end
  end.

(** The entries at one position of the tensors of a list. *)
Definition column {A} (n : nat) (p : list nat) (x : list (tensor A n)) : option (list A) :=
  mapM (tget n p) x.

(** Every entry of a tensor satisfies [P]. *)
Fixpoint tall {A} (P : A → Prop) (n : nat) : tensor A n → Prop :=
  match n with
  | O => P
  | S k => Forall (tall P k)
  end.

(** The entries of [col] at the positions [row] does not mask, and the
    largest of a list of entries (minus infinity for none). *)
Definition unmasked {A} (row : list bool) (col : list A) : list A :=
  snd <$> filter (λ p, p.1 = false) (zip row col).

Definition fmax_list (l : list scalar) : scalar := foldr fmax NInf l.

(** [x] with [v] written at the source positions a transposed mask
    ([S x B]) marks, in every time step and every channel. *)
Definition filled (v : scalar) (x : tensor4) (mask_t : list (list bool)) : tensor4 :=
  map (λ xt : tensor3,
         zip_with (zip_with (λ (xb : tensor1) (b : bool),
                               map (λ a, if b then v else a) xb)) xt mask_t) x.


(** The logits of one softmax: float32 numbers or minus infinity, at
    least one of them a number. *)
Definition good_logits {F : Float32} (c : list scalar) : Prop :=
  Forall (λ a, is_float a ∨ a = NInf) c ∧ Exists is_float c.

(** Plus infinity or a float32 number not below [t]: what a sum of terms
    that are not negative can be. *)
Definition at_least {F : Float32} (t : R) (a : scalar) : Prop :=
  match a with
  | PInf => True
  | Fin q => t <= q ∧ round q = Fin q
  | _ => False
  end.






(** [x] with its batch axis re-indexed by [order]: batch row [j] of the
    result is batch row [order[j]] of [x]. *)
Definition batch_select (x : tensor4) (order : list nat) : tensor4 :=
  map (map (λ xs : tensor2, omap (λ i, xs !! i) order)) x.

(** The state [st'] is the state [st] except, at most, for the entry of
    the instance [self]. *)
Definition confined (self : nat) (st st' : option container) : Prop :=
  match st, st' with
  | Some a, Some b => ∀ k, k ≠ (self, "repr_state") → b !! k = a !! k
  | None, None => True
  | _, _ => False
  end.

End Session.

Import Torch Utils Reducer Session.

(** A strictly positive real. *)
Local Abbreviation pos := (λ a : scalar, ∃ r : R, a = Fin r ∧ 0 < r).

(** The softmax-weighted sum along the first axis, as both branches of
    [softmax]'s [reduce_tgt] compute it. *)
Local Abbreviation weighted_sum b :=
  (sum_dim0 3 (tmap2 fmul 4 (softmax_dim0 3 b%list) b%list)).

(** ** Proof tactics *)

(** [i < n] from [i < m] and a proof that the length [n] is [m]. *)
Ltac lt_len Hi Hlen :=
  eapply Nat.lt_le_trans; [exact Hi|apply Nat.eq_le_incl; symmetry; exact Hlen].


(** A tensor of positive rank is read as the list of its rows. *)
Ltac rows :=
  repeat match goal with
         | x : tensor ?A (S ?k) |- _ => change (tensor A (S k)) with (list (tensor A k)) in *
         end.

Section Properties.
Context {F : Float32} {HF : IEEE F}.

(** ** Construction *)

Lemma VALID_REDUCER_lookup (name : string) :
  VALID_REDUCER !! name =
    if decide (name = "softmax") then Some softmax
    else if decide (name = "attn") then Some attn
    else if decide (name = "max") then Some max
    else None.
Proof.
  unfold VALID_REDUCER, register_reducer.
  repeat (case_decide; [subst; by simplify_map_eq|]).
  by simplify_map_eq.
Qed.

(** C5: a method name that is not registered makes construction itself
    fail with [KeyError], whatever the reduce-axis flag and the other
    arguments: no instance exists whose first call could fail instead. *)
Theorem unregistered_method_fails_at_construction
  (self : nat) (method : string) (reduce_src : bool) (args : ctor_args) :
  VALID_REDUCER !! method = None →
  __init__ self method reduce_src args = Raise KeyError
  ∧ ∀ inst, __init__ self method reduce_src args ≠ Ok inst.
Proof.
  intros Hnone. unfold __init__. rewrite Hnone. split; [done|]. intros inst; discriminate.
Qed.

(** C6: the target branch of [attn] raises [NotImplementedError] on every
    call: whatever the input tensor, the mask and the incremental state,
    which it leaves as it was. *)
Theorem attn_target_always_fails
  (self : nat) (args : ctor_args) (inst : instance)
  (x : tensor4) (mask : option (byte_mask))
  (incremental_state : option container) :
  __init__ self "attn" false args = Ok inst →
  forward inst x mask incremental_state = (Raise NotImplementedError, incremental_state).
Proof.
  unfold __init__. rewrite VALID_REDUCER_lookup. simpl. unfold attn.
  destruct (flags args); simpl; [|discriminate].
  case_decide; simpl; [discriminate|].
  by intros [= <-].
Qed.

(** ** The incremental state *)

Lemma _get_input_buffer_dict (self : nat) (incremental_state : option container) :
  _get_input_buffer self incremental_state
  = Some (default ∅ (get_incremental_state self incremental_state "repr_state")).
Proof.
  unfold _get_input_buffer.
  destruct (get_incremental_state _ _ _) as [d|]; simpl; [|done].
  case_decide as Hsz; [|done]. by apply map_size_empty_inv in Hsz as ->.
Qed.

(** C10: called without an incremental state, the target branches of [max]
    and [softmax] prepare [x] itself, return no state, and give the outcome
    they give on a fresh container, the same for every instance. *)
Theorem target_without_state_is_pure
  (self self' : nat) (x : tensor4) (mask : option (byte_mask)) :
  _prepare_repr self x None = (Ok x, None)
  ∧ (max_reduce_tgt self x mask None).2 = None
  ∧ (softmax_reduce_tgt self x mask None).2 = None
  ∧ max_reduce_tgt self x mask None = max_reduce_tgt self' x mask None
  ∧ softmax_reduce_tgt self x mask None = softmax_reduce_tgt self' x mask None
  ∧ (max_reduce_tgt self x mask None).1 = (max_reduce_tgt self x mask (Some ∅)).1
  ∧ (softmax_reduce_tgt self x mask None).1 = (softmax_reduce_tgt self x mask (Some ∅)).1.
Proof.
  assert (Hp : _prepare_repr self x (Some ∅)
               = (Ok x, Some {[ (self, "repr_state") := {[ "prev_repr" := x ]} ]})).
  { unfold _prepare_repr. rewrite _get_input_buffer_dict. simpl.
    rewrite lookup_empty. simpl. rewrite lookup_empty. reflexivity. }
  unfold max_reduce_tgt, softmax_reduce_tgt. rewrite Hp. simpl.
  repeat split; by destruct mask.
Qed.

(** C9: the target branches of [max] and [softmax] look only at whether a
    mask is given: two calls that differ in the mask alone return the same
    outcome and leave the same incremental state. *)
Theorem target_ignores_mask_content
  (self : nat) (x : tensor4) (m1 m2 : byte_mask)
  (incremental_state : option container) :
  max_reduce_tgt self x (Some m1) incremental_state
  = max_reduce_tgt self x (Some m2) incremental_state
  ∧ softmax_reduce_tgt self x (Some m1) incremental_state
    = softmax_reduce_tgt self x (Some m2) incremental_state.
Proof. split; reflexivity. Qed.

(** Without a buffer, [reorder_incremental_state] still writes: the guard
    [input_buffer is not None] holds of the empty dict that
    [_get_input_buffer] falls back to, which is then stored. *)
Lemma reorder_without_buffer (self : nat) (st : container) (new_order : list nat) :
  st !! (self, "repr_state") = None →
  reorder_incremental_state self (Some st) new_order
  = (Ok (), Some (<[(self, "repr_state") := ∅]> st))
  ∧ <[(self, "repr_state") := (∅ : saved_state)]> st ≠ st.
Proof.
  intros Hnone. unfold reorder_incremental_state.
  rewrite _get_input_buffer_dict. unfold get_incremental_state.
  rewrite Hnone. simpl. rewrite map_to_list_empty. simpl. split; [done|].
  intros Heq. rewrite <- Heq, lookup_insert_eq in Hnone. discriminate.
Qed.

(** C4 (fails on the code): on the empty container, reordering stores an
    empty buffer dict for the instance instead of leaving the container
    unchanged. *)
Theorem reorder_on_empty_container_allocates :
  reorder_incremental_state 0 (Some ∅) [1; 0]%nat
  = (Ok (), Some {[ (0%nat, "repr_state") := ∅ ]})
  ∧ ({[ (0%nat, "repr_state") := ∅ ]} : container) ≠ ∅.
Proof.
  destruct (reorder_without_buffer 0 ∅ [1; 0]%nat) as [H1 H2]; [apply lookup_empty|].
  split; [exact H1|exact H2].
Qed.

(** *** Shapes and concatenation *)

Lemma shape_of_has_shape {A} (n : nat) (sh : list nat) (a b : tensor A n) :
  has_shape n sh a → has_shape n sh b → shape n a = shape n b.
Proof.
  revert sh a b. induction n as [|k IH]; intros sh a b; simpl; [done|].
  destruct sh as [|d sh]; [done|]. intros [Hla Ha] [Hlb Hb].
  f_equal; [congruence|].
  destruct a as [|ra a], b as [|rb b]; simpl in *; try congruence.
  apply Forall_cons in Ha as [Ha _], Hb as [Hb _]. eauto.
Qed.

Lemma cat_has_shape {A} (k d1 d2 : nat) (sh : list nat) (a b : list (tensor A k)) :
  has_shape (S k) (d1 :: sh) a → has_shape (S k) (d2 :: sh) b →
  cat k a b = Ok (a ++ b).
Proof.
  intros [_ Ha] [_ Hb]. unfold cat.
  destruct a as [|ra a]; [done|]. destruct b as [|rb b]; [done|].
  apply Forall_cons in Ha as [Ha _], Hb as [Hb _].
  by rewrite decide_True by eauto using shape_of_has_shape.
Qed.

Lemma has_shape_app {A} (k d1 d2 : nat) (sh : list nat) (a b : list (tensor A k)) :
  has_shape (S k) (d1 :: sh) a → has_shape (S k) (d2 :: sh) b →
  has_shape (S k) ((d1 + d2)%nat :: sh) (a ++ b).
Proof.
  intros [Hla Ha] [Hlb Hb]. split.
  - rewrite length_app. by rewrite Hla, Hlb.
  - by apply Forall_app.
Qed.

(** *** [_prepare_repr] *)

Lemma buffer_Some (self : nat) (st : container) (prev : tensor4) :
  buffer self (Some st) = Some prev ↔
  ∃ d, st !! (self, "repr_state") = Some d ∧ d !! "prev_repr" = Some prev.
Proof.
  unfold buffer, get_incremental_state. split.
  - destruct (st !! _) as [d|] eqn:E; simpl; [eauto|done].
  - intros (d & -> & Hd). done.
Qed.

Lemma buffer_insert (self : nat) (st : container) (d : saved_state) (y : tensor4) :
  buffer self (Some (<[(self, "repr_state") := <["prev_repr" := y]> d]> st)) = Some y.
Proof.
  apply buffer_Some. eexists. split; [apply lookup_insert_eq|apply lookup_insert_eq].
Qed.

Lemma _prepare_repr_first (self : nat) (st : container) (x : tensor4) :
  buffer self (Some st) = None →
  _prepare_repr self x (Some st)
  = (Ok x, Some (<[(self, "repr_state") :=
                   <["prev_repr" := x]> (default ∅ (st !! (self, "repr_state")))]> st)).
Proof.
  unfold buffer, _prepare_repr. rewrite _get_input_buffer_dict.
  unfold get_incremental_state.
  destruct (st !! _) as [d|] eqn:E; simpl.
  - by intros ->.
  - by rewrite lookup_empty.
Qed.

Lemma _prepare_repr_next (self : nat) (st : container) (d : saved_state)
  (prev x : tensor4) :
  st !! (self, "repr_state") = Some d → d !! "prev_repr" = Some prev →
  _prepare_repr self x (Some st)
  = match cat 3 prev x with
    | Ok y => (Ok y, Some (<[(self, "repr_state") := <["prev_repr" := y]> d]> st))
    | Raise e => (Raise e, Some st)
    end.
Proof.
  intros Hd Hprev. unfold _prepare_repr. rewrite _get_input_buffer_dict.
  unfold get_incremental_state. rewrite Hd. simpl. rewrite Hprev.
  by destruct (cat 3 prev x).
Qed.

Lemma prepare_all_next (self : nat) (T S B C : nat) (xs : list (tensor4)) :
  Forall (has_shape 4 [1; S; B; C]%nat) xs →
  ∀ (st : container) (prev : tensor4),
  buffer self (Some st) = Some prev →
  has_shape 4 [T; S; B; C] prev →
  ∃ st', prepare_all self xs (Some st) = (Ok (running prev xs), Some st')
    ∧ buffer self (Some st') = Some (prev ++ concat xs)
    ∧ ∀ k, k ≠ (self, "repr_state") → st' !! k = st !! k.
Proof.
  intros Hxs. revert T. induction Hxs as [|x xs Hx Hxs IH]; intros T st prev Hbuf Hprev.
  - exists st. simpl. by rewrite app_nil_r.
  - apply buffer_Some in Hbuf as (d & Hd & Hp). cbn [prepare_all running concat].
    rewrite (_prepare_repr_next _ _ _ _ _ Hd Hp).
    rewrite (cat_has_shape _ _ _ _ _ _ Hprev Hx).
    edestruct (IH (T + 1)%nat) as (st' & -> & Hb & Hframe);
      [apply buffer_insert|exact (has_shape_app 3 T 1 _ prev x Hprev Hx)|].
    exists st'. split; [done|]. split; [by rewrite Hb, <- app_assoc|].
    intros k Hk. rewrite Hframe by done. by apply lookup_insert_ne.
Qed.

(** C3: on a container, [_prepare_repr] returns [x] and stores it when the
    instance has no buffer, and otherwise returns the buffer concatenated
    with [x] along the time axis and stores that; the entries of other
    instances are untouched.  Hence [n] successive calls that each supply a
    [1 x S x B x C] slice leave the concatenation of the slices in call
    order as the buffer, of time length [n]. *)
Theorem prepare_repr_accumulates (self : nat) (st : container) :
  (∀ x, buffer self (Some st) = None →
     ∃ st', _prepare_repr self x (Some st) = (Ok x, Some st')
       ∧ buffer self (Some st') = Some x
       ∧ ∀ k, k ≠ (self, "repr_state") → st' !! k = st !! k)
  ∧ (∀ x prev T T' sh,
       buffer self (Some st) = Some prev →
       has_shape 4 (T :: sh) prev → has_shape 4 (T' :: sh) x →
       ∃ st', _prepare_repr self x (Some st) = (Ok (prev ++ x), Some st')
         ∧ buffer self (Some st') = Some (prev ++ x)
         ∧ ∀ k, k ≠ (self, "repr_state") → st' !! k = st !! k)
  ∧ (∀ S B C x xs,
       buffer self (Some st) = None →
       Forall (has_shape 4 [1; S; B; C]%nat) (x :: xs) →
       ∃ st', prepare_all self (x :: xs) (Some st)
              = (Ok (running [] (x :: xs)), Some st')
         ∧ buffer self (Some st') = Some (concat (x :: xs))
         ∧ length (concat (x :: xs)) = length (x :: xs)).
Proof.
  split; [|split].
  - intros x Hnone. eexists. rewrite (_prepare_repr_first _ _ _ Hnone).
    split; [done|]. split; [apply buffer_insert|].
    intros k Hk. by apply lookup_insert_ne.
  - intros x prev T T' sh Hbuf Hprev Hx.
    apply buffer_Some in Hbuf as (d & Hd & Hp).
    rewrite (_prepare_repr_next _ _ _ _ _ Hd Hp), (cat_has_shape _ _ _ _ _ _ Hprev Hx).
    eexists. split; [done|]. split; [apply buffer_insert|].
    intros k Hk. by apply lookup_insert_ne.
  - intros S B C x xs Hnone Hall.
    apply Forall_cons in Hall as [Hx Hxs]. cbn [prepare_all running concat app].
    rewrite (_prepare_repr_first _ _ _ Hnone).
    edestruct (prepare_all_next self 1 S B C xs Hxs) as (st' & -> & Hb & _);
      [apply buffer_insert|exact Hx|].
    exists st'. split; [done|]. split; [done|].
    assert (Hlen : ∀ l : list (tensor4),
               Forall (has_shape 4 [1; S; B; C]%nat) l → length (concat l) = length l).
    { induction 1 as [|y l [Hy _] _ IHl]; simpl; [done|].
      rewrite length_app. simpl in Hy. lia. }
    apply (Hlen (x :: xs)). by constructor.
Qed.

(** ** Tensors: shapes, entries, elementwise operations *)

Lemma mapM_Ok_map {A B} (f : A → result B) (g : A → B) (l : list A) :
  Forall (λ x, f x = Ok (g x)) l → mapM f l = Ok (map g l).
Proof. induction 1 as [|x l Hx _ IH]; simpl; [done|]. by rewrite Hx, IH. Qed.

Lemma mapM_Ok_inv {A B} (f : A → result B) (l : list A) (k : list B) :
  mapM f l = Ok k → Forall2 (λ x y, f x = Ok y) l k.
Proof.
  revert k. induction l as [|x l IH]; intros k; simpl.
  - intros [= <-]. constructor.
  - destruct (f x) as [y|] eqn:Hy; simpl; [|done].
    destruct (mapM f l) as [ys|]; simpl; [|done].
    intros [= <-]. constructor; auto.
Qed.

Lemma has_shape_tmap2 {A B C} (f : A → B → C) (n : nat) (sh : list nat)
  (a : tensor A n) (b : tensor B n) :
  has_shape n sh a → has_shape n sh b → has_shape n sh (tmap2 f n a b).
Proof.
  revert sh a b. induction n as [|k IH]; intros sh a b; simpl; [done|].
  destruct sh as [|d sh]; [done|]. intros [Hla Ha] [Hlb Hb]. split.
  - rewrite length_zip_with_l_eq; [exact Hla|]. by etrans.
  - apply Forall_lookup. intros i y Hy.
    apply lookup_zip_with_Some in Hy as (ai & bi & -> & Hai & Hbi).
    apply IH; [by eapply (proj1 (Forall_lookup _ _) Ha)|by eapply (proj1 (Forall_lookup _ _) Hb)].
Qed.

Lemma has_shape_foldl_tmap2 {A} (f : A → A → A) (n : nat) (sh : list nat)
  (r : tensor A n) (rs : list (tensor A n)) :
  has_shape n sh r → Forall (has_shape n sh) rs →
  has_shape n sh (foldl (tmap2 f n) r rs).
Proof.
  intros Hr Hrs. revert r Hr.
  induction Hrs as [|r' rs Hr' _ IH]; intros r Hr; simpl; [done|].
  apply IH. by apply has_shape_tmap2.
Qed.

Lemma has_shape_max_dim0 (n : nat) (sh : list nat) (x : list (tensor scalar n)) :
  Forall (has_shape n sh) x → x ≠ [] →
  ∃ y, max_dim0 n x = Ok y ∧ has_shape n sh y.
Proof.
  intros Hx Hne. destruct Hx as [|r rs Hr Hrs]; [done|].
  eexists. split; [done|]. by apply has_shape_foldl_tmap2.
Qed.

Lemma has_shape_sum_dim0 (n : nat) (sh : list nat) (x : list (tensor scalar n)) :
  Forall (has_shape n sh) x → x ≠ [] → has_shape n sh (sum_dim0 n x).
Proof.
  intros Hx Hne. destruct Hx as [|r rs Hr Hrs]; [done|].
  by apply has_shape_foldl_tmap2.
Qed.

Lemma has_shape_softmax_dim0 (n : nat) (sh : list nat) (x : list (tensor scalar n)) :
  Forall (has_shape n sh) x →
  Forall (has_shape n sh) (softmax_dim0 n x)
  ∧ length (softmax_dim0 n x) = length x.
Proof.
  intros Hx. destruct x as [|r rs]; [done|]. unfold softmax_dim0.
  set (m := foldl (tmap2 fmax n) r rs).
  assert (Hm : has_shape n sh m).
  { apply Forall_cons in Hx as [??]. by apply has_shape_foldl_tmap2. }
  set (e := map (λ xi, tmap2 (λ a b, fexp (fsub a b)) n xi m) (r :: rs)).
  assert (He : Forall (has_shape n sh) e).
  { apply Forall_fmap. eapply Forall_impl; [exact Hx|].
    intros xi Hxi. simpl. by apply has_shape_tmap2. }
  assert (Hs : has_shape n sh (sum_dim0 n e)) by (by apply has_shape_sum_dim0).
  split.
  - apply Forall_fmap. eapply Forall_impl; [exact He|].
    intros ei Hei. simpl. by apply has_shape_tmap2.
  - unfold e. by rewrite !length_map.
Qed.

Lemma cat_rows {A} (k : nat) (sh : list nat) (a b : list (tensor A k)) :
  Forall (has_shape k sh) a → Forall (has_shape k sh) b → cat k a b = Ok (a ++ b).
Proof.
  intros Ha Hb. by apply (cat_has_shape k (length a) (length b) sh).
Qed.

(** *** Entries *)

Lemma tall_impl {A} (P Q : A → Prop) (n : nat) (t : tensor A n) :
  (∀ a, P a → Q a) → tall P n t → tall Q n t.
Proof.
  intros HPQ. revert t. induction n as [|k IH]; intros t; simpl; [auto|].
  intros Ht. eapply Forall_impl; [exact Ht|]. auto.
Qed.

Lemma tall_tmap2 {A B C} (P : A → Prop) (Q : B → Prop) (R : C → Prop)
  (f : A → B → C) (n : nat) (a : tensor A n) (b : tensor B n) :
  (∀ u v, P u → Q v → R (f u v)) →
  tall P n a → tall Q n b → tall R n (tmap2 f n a b).
Proof.
  intros Hf. revert a b. induction n as [|k IH]; intros a b; simpl; [auto|].
  intros Ha Hb. apply Forall_lookup. intros i y Hy.
  apply lookup_zip_with_Some in Hy as (ai & bi & -> & Hai & Hbi).
  apply IH; [by eapply (proj1 (Forall_lookup _ _) Ha)|by eapply (proj1 (Forall_lookup _ _) Hb)].
Qed.

Lemma tall_foldl_tmap2 {A} (P : A → Prop) (f : A → A → A) (n : nat)
  (r : tensor A n) (rs : list (tensor A n)) :
  (∀ u v, P u → P v → P (f u v)) →
  tall P n r → Forall (tall P n) rs → tall P n (foldl (tmap2 f n) r rs).
Proof.
  intros Hf Hr Hrs. revert r Hr.
  induction Hrs as [|r' rs Hr' _ IH]; intros r Hr; simpl; [done|].
  apply IH. by eapply tall_tmap2.
Qed.

Lemma any_nan_tall (n : nat) (t : tensor scalar n) :
  tall is_fin n t → any_nan n t = false.
Proof.
  revert t. induction n as [|k IH]; intros t; simpl.
  - by destruct t.
  - induction 1 as [|r rs Hr _ IHrs]; simpl; [done|]. by rewrite IH.
Qed.

Lemma tall_tget {A} (P : A → Prop) (n : nat) (t : tensor A n) :
  tall P n t ↔ ∀ p a, tget n p t = Some a → P a.
Proof.
  revert t. induction n as [|k IH]; intros t; simpl.
  - split.
    + intros Ht [|??] a; [by intros [= <-]|done].
    + intros H. by apply (H []).
  - rewrite Forall_lookup. split.
    + intros Ht [|i p] a; [done|].
      destruct (_ !! i) as [ti|] eqn:Hti; simpl; [|done].
      intros Ha. eapply IH; [by eapply Ht|done].
    + intros H i ti Hti. apply IH. intros p a Ha.
      apply (H (i :: p)). by rewrite Hti.
Qed.

Lemma tget_has_shape {A} (n : nat) (sh p : list nat) (t : tensor A n) :
  has_shape n sh t → Forall2 lt p sh → is_Some (tget n p t).
Proof.
  revert sh p t. induction n as [|k IH]; intros sh p t; simpl.
  - intros -> Hp. apply Forall2_nil_inv_r in Hp as ->. by eexists.
  - destruct sh as [|d sh]; [done|]. intros [Hl Ht] Hp.
    apply Forall2_cons_inv_r in Hp as (i & p' & Hi & Hp' & ->).
    rows. destruct (lookup_lt_is_Some_2 t i) as [ti Hti]; [by rewrite Hl|].
    rewrite Hti. simpl. eapply IH; [|done].
    by eapply (proj1 (Forall_lookup _ _) Ht).
Qed.

Lemma tget_in_bounds {A} (n : nat) (sh p : list nat) (t : tensor A n) (a : A) :
  has_shape n sh t → tget n p t = Some a → Forall2 lt p sh.
Proof.
  revert sh p t. induction n as [|k IH]; intros sh p t; simpl.
  - intros ->. destruct p; [constructor|done].
  - destruct sh as [|d sh]; [done|]. intros [Hl Ht]. destruct p as [|i p]; [done|].
    destruct (_ !! i) as [ti|] eqn:Hti; simpl; [|done].
    intros Ha. constructor.
    + apply lookup_lt_Some in Hti. lia.
    + eapply IH; [|done]. by eapply (proj1 (Forall_lookup _ _) Ht).
Qed.

Lemma tget_tmap2 {A B C} (f : A → B → C) (n : nat) (p : list nat)
  (a : tensor A n) (b : tensor B n) (u : A) (v : B) :
  tget n p a = Some u → tget n p b = Some v →
  tget n p (tmap2 f n a b) = Some (f u v).
Proof.
  revert p a b. induction n as [|k IH]; intros p a b; simpl.
  - destruct p; [|done]. by intros [= <-] [= <-].
  - destruct p as [|i p]; [done|]. rewrite lookup_zip_with.
    destruct (_ !! i) as [ai|]; simpl; [|done].
    destruct (_ !! i) as [bi|]; simpl; [|done]. apply IH.
Qed.

Lemma tget_foldl_tmap2 {A} (f : A → A → A) (n : nat) (p : list nat)
  (r : tensor A n) (rs : list (tensor A n)) (u : A) (vs : list A) :
  tget n p r = Some u → column n p rs = Some vs →
  tget n p (foldl (tmap2 f n) r rs) = Some (foldl f u vs).
Proof.
  unfold column. revert r u vs.
  induction rs as [|r' rs IH]; intros r u vs Hr; simpl.
  - by intros [= <-].
  - destruct (tget n p r') as [v|] eqn:Hv; simpl; [|done].
    destruct (mapM (tget n p) rs) as [vs'|] eqn:Hvs; simpl; [|done].
    intros [= <-]. simpl. apply IH; [|done]. by apply tget_tmap2.
Qed.

(** ** Arithmetic on entries *)

Lemma fmax_comm (a b : scalar) : fmax a b = fmax b a.
Proof. destruct a, b; simpl; try done. by rewrite Rmax_comm. Qed.

Lemma fmax_assoc (a b c : scalar) : fmax a (fmax b c) = fmax (fmax a b) c.
Proof. destruct a, b, c; simpl; try done. by rewrite Rmax_assoc. Qed.

Lemma fmax_NInf_l (a : scalar) : fmax NInf a = a.
Proof. by destruct a. Qed.

Lemma fmax_NInf_r (a : scalar) : fmax a NInf = a.
Proof. by destruct a. Qed.

Lemma tmap2_comm {A B} (f : A → A → B) (n : nat) (a b : tensor A n) :
  (∀ u v, f u v = f v u) → tmap2 f n a b = tmap2 f n b a.
Proof.
  intros Hf. revert a b. induction n as [|k IH]; intros a b; simpl; [done|].
  revert b. induction a as [|ra a IHa]; intros [|rb b]; simpl; try done.
  by rewrite IH, IHa.
Qed.

(** ** Decoding sessions *)

Lemma _prepare_repr_step (self : nat) (sh : list nat) (st : container)
  (prev : tensor4) (r : tensor3) :
  Forall (has_shape 3 sh) prev → has_shape 3 sh r →
  buffer self (Some st) = Some prev ∨ (buffer self (Some st) = None ∧ prev = []) →
  ∃ st', _prepare_repr self [r] (Some st) = (Ok (prev ++ [r]), Some st')
    ∧ buffer self (Some st') = Some (prev ++ [r]).
Proof.
  intros Hprev Hr [Hbuf|[Hbuf ->]].
  - apply buffer_Some in Hbuf as (d & Hd & Hp).
    rewrite (_prepare_repr_next _ _ _ _ _ Hd Hp).
    rewrite (cat_rows 3 sh prev [r]) by (done || by constructor).
    eexists. split; [done|]. apply buffer_insert.
  - rewrite (_prepare_repr_first _ _ _ Hbuf).
    eexists. split; [done|]. apply buffer_insert.
Qed.

(** A forward function that prepares its input and then computes [g] from
    the buffer alone gives, step by step, [g] of the inputs so far. *)
Lemma decode_via_prepare (self : nat) (f : forward_fn) (g : tensor4 → result Tensor)
  (sh : list nat) :
  (∀ x st, f x None st
           = match _prepare_repr self x st with
             | (Ok b, st') => (g b, st')
             | (Raise e, st') => (Raise e, st')
             end) →
  ∀ (steps : list tensor3) (prev : tensor4) (st : container) (ys : list Tensor),
  Forall (has_shape 3 sh) steps → Forall (has_shape 3 sh) prev →
  buffer self (Some st) = Some prev ∨ (buffer self (Some st) = None ∧ prev = []) →
  Forall2 (λ k y, g (prev ++ take (S k) steps) = Ok y) (seq 0 (length steps)) ys →
  ∃ st', decode f ((λ r, [r]) <$> steps) (Some st) = (Ok ys, Some st').
Proof.
  intros Hf steps. induction steps as [|r steps IH]; intros prev st ys Hsteps Hprev Hbuf Hys.
  - simpl in *. apply Forall2_nil_inv_l in Hys as ->. by exists st.
  - apply Forall_cons in Hsteps as [Hr Hsteps].
    simpl in Hys. apply Forall2_cons_inv_l in Hys as (y & ys' & Hy & Hys' & ->).
    destruct (_prepare_repr_step self sh st prev r Hprev Hr Hbuf) as (st1 & Hp & Hb1).
    destruct (IH (prev ++ [r]) st1 ys') as (st' & Hdec); [done| |by left|..].
    { apply Forall_app. split; [done|by constructor]. }
    { rewrite <- fmap_S_seq in Hys'. apply Forall2_fmap_l in Hys'.
      eapply Forall2_impl; [exact Hys'|]. intros k z. simpl.
      by rewrite <- app_assoc. }
    exists st'. cbn [decode fmap list_fmap]. rewrite Hf, Hp. simpl in Hy. rewrite take_0 in Hy. rewrite Hy.
    by rewrite Hdec.
Qed.

(** *** [max]: prefix maxima *)

Lemma max_train_loop (sh : list nat) (x0 : tensor3) (xs : list tensor3) :
  has_shape 3 sh x0 → Forall (has_shape 3 sh) xs →
  let pm := λ k, foldl (tmap2 fmax 3) x0 (take k xs) in
  ∀ n j, (j + n = length xs)%nat →
  rfold (λ (out : tensor4) (i : nat),
           xi ← index (x0 :: xs) i;
           oi ← index out (i - 1);
           cat 3 out (unsqueeze0 (tmap2 fmax 3 xi oi)))
        (seq (S j) n) (pm <$> seq 0 (S j))
  = Ok (pm <$> seq 0 (S j + n)).
Proof.
  intros Hx0 Hxs pm.
  assert (Hpm : ∀ k, has_shape 3 sh (pm k)).
  { intros k. apply has_shape_foldl_tmap2; [done|]. by apply Forall_take. }
  match goal with |- ∀ n j, _ → rfold ?f _ _ = _ => set (step := f) end.
  assert (Hstep : ∀ j xj, xs !! j = Some xj →
            step (pm <$> seq 0 (S j)) (S j) = Ok ((pm <$> seq 0 (S j)) ++ [pm (S j)])).
  { intros j xj Hxj. unfold step, index.
    change ((x0 :: xs) !! S j) with (xs !! j). rewrite Hxj.
    cbn [mbind result_bind]. replace (S j - 1)%nat with j by lia.
    rewrite list_lookup_fmap, lookup_seq_lt by lia. cbn [fmap option_fmap option_map Nat.add].
    cbn [mbind result_bind].
    assert (Hnew : tmap2 fmax 3 xj (pm j) = pm (S j)).
    { unfold pm. rewrite (take_S_r _ _ _ Hxj), foldl_snoc.
      apply tmap2_comm, fmax_comm. }
    unfold unsqueeze0. rewrite Hnew. apply (cat_rows 3 sh).
    - apply Forall_fmap, Forall_forall. intros k _. apply Hpm.
    - constructor; [apply Hpm|done]. }
  induction n as [|n IH]; intros j Hj.
  - simpl. by rewrite Nat.add_0_r.
  - destruct (lookup_lt_is_Some_2 xs j) as [xj Hxj]; [lia|].
    change (seq (S j) (S n)) with (S j :: seq (S (S j)) n).
    cbn [rfold]. rewrite (Hstep j xj Hxj). cbn [mbind result_bind].
    assert (Hsnoc : (pm <$> seq 0 (S j)) ++ [pm (S j)] = pm <$> seq 0 (S (S j))).
    { by rewrite (seq_S (S j)), fmap_app. }
    rewrite Hsnoc, (IH (S j)) by lia.
    do 3 f_equal. lia.
Qed.

Lemma max_reduce_tgt_decode_step (self : nat) (x : tensor4) (st : option container) :
  max_reduce_tgt self x None st
  = match _prepare_repr self x st with
    | (Ok b, st') => (y ← max_dim0 3 b; Ok (mkTensor 3 y), st')
    | (Raise e, st') => (Raise e, st')
    end.
Proof. unfold max_reduce_tgt. by destruct (_prepare_repr self x st) as [[?|?] ?]. Qed.

Lemma max_training_matches_decoding (self : nat) (sh : list nat) (x : tensor4)
  (m : byte_mask) :
  Forall (has_shape 3 sh) x →
  ∃ out st',
    max_reduce_tgt self x (Some m) None = (Ok (mkTensor 4 out), None)
    ∧ decode (max_reduce_tgt self) ((λ r, [r]) <$> x) (Some ∅)
      = (Ok (mkTensor 3 <$> out), Some st')
    ∧ Forall2 (λ k o, max_dim0 3 (take (S k) x) = Ok o) (seq 0 (length x)) out.
Proof.
  intros Hx. destruct x as [|x0 xs].
  - exists [], ∅. by repeat split; try constructor.
  - apply Forall_cons in Hx as [Hx0 Hxs].
    set (pm := λ k, foldl (tmap2 fmax 3) x0 (take k xs)).
    assert (Hrows : Forall2 (λ k o, max_dim0 3 (take (S k) (x0 :: xs)) = Ok o)
                      (seq 0 (length (x0 :: xs))) (pm <$> seq 0 (length (x0 :: xs)))).
    { apply Forall2_fmap_r, Forall_Forall2_diag, Forall_forall. by intros k _. }
    destruct (decode_via_prepare self (max_reduce_tgt self)
                (λ b, y ← max_dim0 3 b; Ok (mkTensor 3 y)) sh
                (max_reduce_tgt_decode_step self) (x0 :: xs) [] ∅
                (mkTensor 3 <$> (pm <$> seq 0 (length (x0 :: xs)))))
      as (st' & Hdec); [by constructor|constructor|by right| |].
    { apply Forall2_fmap_r. eapply Forall2_impl; [exact Hrows|].
      intros k o Ho. cbn beta in *. by rewrite app_nil_l, Ho. }
    exists (pm <$> seq 0 (length (x0 :: xs))), st'. split; [|by split].
    pose proof (max_train_loop sh x0 xs Hx0 Hxs (length xs) 0%nat eq_refl) as Hloop.
    unfold max_reduce_tgt. cbn [_prepare_repr].
    match goal with
    | |- context [rfold ?f ?l ?b] =>
        assert (Hl : rfold f l b = Ok (pm <$> seq 0 (length (x0 :: xs))))
          by (cbn [length]; rewrite Nat.sub_succ, Nat.sub_0_r; exact Hloop);
        rewrite Hl
    end.
    done.
Qed.

(** *** [softmax]: prefix softmax-weighted sums *)

Lemma sgn_pos (r : R) : 0 < r → sgn r = Pos.
Proof. intros Hr. unfold sgn. destruct (total_order_T r 0) as [[?|?]|?]; [lra|lra|done]. Qed.

Lemma fmax_fin (a b : scalar) : is_fin a → is_fin b → is_fin (fmax a b).
Proof. by destruct a, b. Qed.

Lemma has_shape_weighted_sum (sh : list nat) (b : tensor4) :
  Forall (has_shape 3 sh) b → b ≠ [] → has_shape 3 sh (weighted_sum b).
Proof.
  intros Hb Hne. destruct (has_shape_softmax_dim0 3 sh b Hb) as [Hp Hlen].
  apply has_shape_sum_dim0.
  - apply Forall_lookup. intros i y Hy.
    apply lookup_zip_with_Some in Hy as (pi & bi & -> & Hpi & Hbi).
    apply (has_shape_tmap2 fmul 3 sh pi bi);
      [by eapply (proj1 (Forall_lookup _ _) Hp)|by eapply (proj1 (Forall_lookup _ _) Hb)].
  - destruct b as [|b0 bs]; [done|]. discriminate.
Qed.

Lemma softmax_train_loop (sh : list nat) (x0 : tensor3) (xs : list tensor3) :
  has_shape 3 sh x0 → Forall (has_shape 3 sh) xs →
  let sm := λ k, weighted_sum (take (S k) (x0 :: xs)) in
  ∀ n j,
  rfold (λ (out : tensor4) (i : nat),
           let xi := take (i + 1) (x0 :: xs) in
           cat 3 out (unsqueeze0 (sum_dim0 3 (tmap2 fmul 4 (softmax_dim0 3 xi) xi))))
        (seq (S j) n) (x0 :: (sm <$> seq 1 j))
  = Ok (x0 :: (sm <$> seq 1 (j + n))).
Proof.
  intros Hx0 Hxs sm.
  assert (Hsm : ∀ k, has_shape 3 sh (sm k)).
  { intros k. apply has_shape_weighted_sum; [|done].
    apply Forall_take. by constructor. }
  match goal with |- ∀ n j, rfold ?f _ _ = _ => set (step := f) end.
  assert (Hstep : ∀ j, step (x0 :: (sm <$> seq 1 j)) (S j)
                       = Ok ((x0 :: (sm <$> seq 1 j)) ++ [sm (S j)])).
  { intros j. unfold step. cbv zeta. rewrite Nat.add_1_r.
    apply (cat_rows 3 sh).
    - constructor; [done|]. apply Forall_fmap, Forall_forall. intros k _. apply Hsm.
    - constructor; [apply Hsm|done]. }
  induction n as [|n IH]; intros j.
  - simpl. by rewrite Nat.add_0_r.
  - change (seq (S j) (S n)) with (S j :: seq (S (S j)) n).
    cbn [rfold]. rewrite (Hstep j). cbn [mbind result_bind].
    assert (Hsnoc : (x0 :: (sm <$> seq 1 j)) ++ [sm (S j)] = x0 :: (sm <$> seq 1 (S j))).
    { by rewrite (seq_S j), fmap_app. }
    rewrite Hsnoc, (IH (S j)).
    by rewrite Nat.add_succ_r.
Qed.

Lemma softmax_reduce_tgt_decode_step (self : nat) (x : tensor4) (st : option container) :
  softmax_reduce_tgt self x None st
  = match _prepare_repr self x st with
    | (Ok b, st') =>
        (if any_nan 4 (softmax_dim0 3 b) then Raise AssertionError
         else Ok (mkTensor 3 (weighted_sum b)), st')
    | (Raise e, st') => (Raise e, st')
    end.
Proof. unfold softmax_reduce_tgt. by destruct (_prepare_repr self x st) as [[?|?] ?]. Qed.

(** ** Masks *)

Lemma transpose_shape {A} (B S : nat) (m : list (list A)) :
  length m = B → Forall (λ r, length r = S) m → (0 < B)%nat →
  length (transpose m) = S ∧ Forall (λ r, length r = B) (transpose m).
Proof.
  revert B. induction m as [|r rs IH]; intros B HB Hm HBpos; simpl in *; [lia|].
  apply Forall_cons in Hm as [Hr Hrs].
  destruct rs as [|r' rs].
  - split; [by rewrite length_map|]. subst B.
    apply Forall_fmap, Forall_forall. by intros a _.
  - destruct (IH (length (r' :: rs))) as [Hl Hrows]; [done|done|simpl; lia|].
    split.
    + rewrite length_zip_with, Hl, Hr. lia.
    + apply Forall_lookup. intros i y Hy.
      apply lookup_zip_with_Some in Hy as (a & row & -> & _ & Hrow).
      simpl. rewrite (proj1 (Forall_lookup _ _) Hrows _ _ Hrow). simpl in *. lia.
Qed.

Lemma transpose_lookup {A} (Ns : nat) (m : list (list A)) (s b : nat) :
  Forall (λ r, length r = Ns) m →
  transpose m !! s ≫= (.!! b) = m !! b ≫= (.!! s).
Proof.
  intros Hm. revert b. induction Hm as [|r rs Hr Hrs IH]; intros b.
  - by destruct b.
  - destruct rs as [|r' rs].
    + change (transpose [r]) with (map (λ a, [a]) r).
      rewrite list_lookup_fmap. destruct (r !! s) as [a|] eqn:Ha.
      * destruct b as [|[|b]]; simpl; by rewrite ?Ha.
      * destruct b as [|[|b]]; simpl; by rewrite ?Ha.
    + change (transpose (r :: r' :: rs)) with (zip_with cons r (transpose (r' :: rs))).
      destruct (transpose_shape (length (r' :: rs)) Ns (r' :: rs)) as [Hl _];
        [done|done|simpl; lia|].
      set (tr := transpose (r' :: rs)) in *.
      rewrite lookup_zip_with.
      destruct (r !! s) as [a|] eqn:Ha.
      * destruct (lookup_lt_is_Some_2 tr s) as [row Hrow].
        { rewrite Hl, <- Hr. by eapply lookup_lt_Some. }
        rewrite Hrow. destruct b as [|b]; simpl; [by rewrite Ha|].
        specialize (IH b). rewrite Hrow in IH. exact IH.
      * destruct b as [|b]; simpl; [by rewrite Ha|].
        specialize (IH b). rewrite (lookup_ge_None_2 tr) in IH; [exact IH|].
        rewrite Hl, <- Hr. by apply lookup_ge_None_1.
Qed.

Lemma mapM_zip_fmap_Ok {A B B' C} (f : A * B' → result C) (h : B → B')
  (g : A → B → C) (x : list A) (m : list B) :
  Forall2 (λ a b, f (a, h b) = Ok (g a b)) x m →
  mapM f (zip x (h <$> m)) = Ok (zip_with g x m).
Proof.
  induction 1 as [|a b x m Hab _ IH]; [done|].
  change (mapM f (zip (a :: x) (h <$> b :: m)))
    with (y ← f (a, h b); ys ← mapM f (zip x (h <$> m)); Ok (y :: ys)).
  by rewrite Hab, IH.
Qed.

Lemma masked_fill_broadcast {A} (k : nat) (x : list (tensor A k)) (m0 : tensor bool k)
  (v : A) :
  masked_fill (S k) x [m0] v = mapM (λ xi, masked_fill k xi m0 v) x.
Proof.
  simpl. case_decide as Hlen; [|done].
  destruct x as [|x0 [|x1 x]]; simpl in Hlen; try lia. done.
Qed.

Lemma masked_fill_same_length {A} (k : nat) (x : list (tensor A k))
  (m : list (tensor bool k)) (v : A) :
  length m = length x →
  masked_fill (S k) x m v = mapM (λ p, masked_fill k p.1 p.2 v) (zip x m).
Proof. intros Hlen. simpl. by rewrite decide_True. Qed.

Lemma masked_fill_1 (xb : tensor1) (b : bool) (v : scalar) :
  masked_fill 1 xb [b] v = Ok (map (λ a, if b then v else a) xb).
Proof.
  rewrite (masked_fill_broadcast 0). apply mapM_Ok_map, Forall_forall. by intros a _.
Qed.

Lemma masked_fill_2 (xs : tensor2) (tr : list bool) (v : scalar) :
  length tr = length xs →
  masked_fill 2 xs (map (λ b, [b]) tr) v
  = Ok (zip_with (λ (xb : tensor1) (b : bool), map (λ a, if b then v else a) xb) xs tr).
Proof.
  intros Hlen. rewrite (masked_fill_same_length 1) by (by rewrite length_map).
  apply mapM_zip_fmap_Ok, Forall2_true; [|done].
  intros xb b. apply masked_fill_1.
Qed.

Lemma masked_fill_3 (xt : tensor3) (trs : list (list bool)) (v : scalar) :
  Forall2 (λ (xs : tensor2) tr, length tr = length xs) xt trs →
  masked_fill 3 xt (map (map (λ b, [b])) trs) v
  = Ok (zip_with (zip_with (λ (xb : tensor1) (b : bool),
                              map (λ a, if b then v else a) xb)) xt trs).
Proof.
  intros Hrows.
  rewrite (masked_fill_same_length 2)
    by (rewrite length_map; symmetry; by eapply Forall2_length).
  apply mapM_zip_fmap_Ok.
  eapply Forall2_impl; [exact Hrows|]. intros xs tr Hlen.
  by apply masked_fill_2.
Qed.

Lemma masked_fill_expand_mask (T Ns B C : nat) (x : tensor4) (mask : byte_mask)
  (v : scalar) :
  has_shape 4 [T; Ns; B; C] x → has_shape 2 [B; Ns] mask → (0 < B)%nat →
  masked_fill 4 x (expand_mask mask) v = Ok (filled v x (transpose mask)).
Proof.
  intros [_ Hx] [HB Hmask] HBpos.
  destruct (transpose_shape B Ns mask) as [Hl Hrows]; [done| |done|].
  { eapply Forall_impl; [exact Hmask|]. by intros r [? _]. }
  change (expand_mask mask) with [map (map (λ b : bool, [b])) (transpose mask)].
  rewrite (masked_fill_broadcast 3). apply mapM_Ok_map.
  eapply Forall_impl; [exact Hx|]. intros xt [Hxt Hxs]. cbn beta.
  apply masked_fill_3.
  apply Forall2_same_length_lookup. split; [by rewrite Hl|].
  intros s xs tr Hs Htr.
  rewrite (proj1 (Forall_lookup _ _) Hrows _ _ Htr).
  destruct (proj1 (Forall_lookup _ _) Hxs _ _ Hs) as [Hxl _].
  symmetry. exact Hxl.
Qed.

Lemma filled_has_shape (T Ns B C : nat) (x : tensor4) (mask : byte_mask) (v : scalar) :
  has_shape 4 [T; Ns; B; C] x → has_shape 2 [B; Ns] mask → (0 < B)%nat →
  has_shape 4 [T; Ns; B; C] (filled v x (transpose mask)).
Proof.
  intros [HT Hx] [HB Hmask] HBpos.
  destruct (transpose_shape B Ns mask) as [Hl Hrows]; [done| |done|].
  { eapply Forall_impl; [exact Hmask|]. by intros r [? _]. }
  unfold filled. split; [by rewrite length_map|].
  apply Forall_fmap. eapply Forall_impl; [exact Hx|]. intros xt [Hxt Hxs].
  split.
  { rewrite length_zip_with, Hl.
    exact (eq_trans (f_equal (λ k, k `min` Ns) Hxt) (Nat.min_id Ns)). }
  apply Forall_lookup. intros s ys Hys.
  apply lookup_zip_with_Some in Hys as (xs & tr & -> & Hxs' & Htr).
  destruct (proj1 (Forall_lookup _ _) Hxs _ _ Hxs') as [Hxl Hxb].
  pose proof (proj1 (Forall_lookup _ _) Hrows _ _ Htr) as Htl.
  split.
  { rewrite length_zip_with, Htl.
    exact (eq_trans (f_equal (λ k, k `min` B) Hxl) (Nat.min_id B)). }
  apply Forall_lookup. intros b yb Hyb.
  apply lookup_zip_with_Some in Hyb as (xb & m & -> & Hxb' & _).
  destruct (proj1 (Forall_lookup _ _) Hxb _ _ Hxb') as [Hc _].
  split; [|apply Forall_forall; by intros a _].
  rewrite length_map. exact Hc.
Qed.

Lemma column_filled (v : scalar) (Ns : nat) (xt : tensor3) (mask : byte_mask)
  (b c : nat) (col : list scalar) (row : list bool) :
  Forall (λ r, length r = Ns) mask → length (transpose mask) = Ns → length xt = Ns →
  column 2 [b; c] xt = Some col → mask !! b = Some row →
  column 2 [b; c]
    (zip_with (zip_with (λ (xb : tensor1) (m : bool), map (λ a, if m then v else a) xb))
       xt (transpose mask))
  = Some (zip_with (λ a (m : bool), if m then v else a) col row).
Proof.
  intros Hmask Hl Hxt Hcol Hrow. unfold column in *.
  apply mapM_Some in Hcol. apply mapM_Some.
  assert (Hlrow : length row = Ns).
  { by apply (proj1 (Forall_lookup _ _) Hmask _ _ Hrow). }
  apply Forall2_same_length_lookup. split.
  { pose proof (Forall2_length _ _ _ Hcol) as Hlcol.
    etrans; [apply length_zip_with_l_eq; exact (eq_trans Hxt (eq_sym Hl))|].
    symmetry. etrans; [apply length_zip_with_l_eq|symmetry; exact Hlcol].
    exact (eq_trans (eq_sym Hlcol) (eq_trans Hxt (eq_sym Hlrow))). }
  intros s fs y Hfs Hy.
  apply lookup_zip_with_Some in Hfs as (xs & tr & -> & Hxs & Htr).
  apply lookup_zip_with_Some in Hy as (a & m & -> & Ha & Hm).
  pose proof (Forall2_lookup_lr _ _ _ _ _ _ Hcol Hxs Ha) as Hget.
  simpl in Hget. simpl.
  destruct (xs !! b) as [xb|] eqn:Hxb; simpl in Hget; [|done].
  destruct (xb !! c) as [a'|] eqn:Hxc; simpl in Hget; [|done].
  injection Hget as ->.
  pose proof (transpose_lookup Ns mask s b Hmask) as Htl.
  rewrite Htr, Hrow in Htl. simpl in Htl. rewrite Hm in Htl.
  rewrite lookup_zip_with, Hxb, Htl. simpl.
  by rewrite list_lookup_fmap, Hxc.
Qed.

Lemma foldl_fmax_list (a : scalar) (l : list scalar) :
  foldl fmax a l = fmax_list (a :: l).
Proof.
  revert a. induction l as [|b l IH]; intros a; simpl.
  - by rewrite fmax_NInf_r.
  - rewrite IH. simpl. by rewrite fmax_assoc.
Qed.

Lemma fmax_list_unmasked (col : list scalar) (row : list bool) :
  fmax_list (zip_with (λ a (m : bool), if m then NInf else a) col row)
  = fmax_list (unmasked row col).
Proof.
  unfold unmasked. revert row. induction col as [|a col IH]; intros [|m row]; try done.
  change (fmax_list (zip_with (λ a (m : bool), if m then NInf else a) (a :: col) (m :: row)))
    with (fmax (if m then NInf else a)
            (fmax_list (zip_with (λ a (m : bool), if m then NInf else a) col row))).
  rewrite IH. change (zip (m :: row) (a :: col)) with ((m, a) :: zip row col).
  destruct m.
  - rewrite filter_cons_False by done. apply fmax_NInf_l.
  - by rewrite filter_cons_True by done.
Qed.

Lemma unmasked_all_masked {A} (col : list A) (row : list bool) :
  Forall (λ m, m = true) row → unmasked row col = [].
Proof.
  unfold unmasked. intros Hrow. revert col.
  induction Hrow as [|m row -> _ IH]; intros [|a col]; try done.
  change (zip (true :: row) (a :: col)) with ((true, a) :: zip row col).
  rewrite filter_cons_False by done. apply IH.
Qed.

(** [fmax_list] is the maximum: it is one of the entries and, when none
    of them is NaN, at least each of them. *)
Lemma fmax_list_elem (l : list scalar) : l ≠ [] → fmax_list l ∈ l.
Proof.
  induction l as [|a l IH]; [done|]. intros _. simpl.
  destruct l as [|b l].
  - simpl. rewrite fmax_NInf_r. by left.
  - specialize (IH ltac:(done)). set (r := fmax_list (b :: l)) in *.
    assert (fmax a r = a ∨ fmax a r = r) as [->| ->]; [|by left|by right].
    destruct a as [| |x|], r as [| |y|]; simpl; auto.
    unfold Rmax. destruct (Rle_dec x y); auto.
Qed.

Lemma fmax_list_upper (l : list scalar) :
  Forall (λ a, is_nan a = false) l →
  is_nan (fmax_list l) = false ∧ Forall (λ a, fle a (fmax_list l)) l.
Proof.
  induction 1 as [|a l Ha Hl [IHn IH]]; simpl; [done|].
  set (r := fmax_list l) in *. split.
  - by destruct a, r.
  - constructor.
    + destruct a as [| |x|], r as [| |y|]; simpl in *; try done;
        first [lra | apply Rmax_l].
    + eapply Forall_impl; [exact IH|]. intros b Hb.
      destruct a as [| |x|], b as [| |z|], r as [| |y|]; simpl in *; try done.
      pose proof (Rmax_r x y). lra.
Qed.

Lemma max_dim0_column (n : nat) (p : list nat) (x : list (tensor scalar n))
  (y : tensor scalar n) (col : list scalar) :
  column n p x = Some col → max_dim0 n x = Ok y →
  tget n p y = Some (fmax_list col).
Proof.
  destruct x as [|r rs]; [done|]. unfold column. simpl.
  destruct (tget n p r) as [a|] eqn:Ha; simpl; [|done].
  destruct (mapM (tget n p) rs) as [vs|] eqn:Hvs; simpl; [|done].
  intros [= <-] [= <-]. rewrite <- foldl_fmax_list.
  by apply tget_foldl_tmap2.
Qed.

Lemma max_dim1_rows (n T Ns : nat) (sh : list nat) (x : list (list (tensor scalar n))) :
  length x = T → Forall (λ xt, length xt = Ns ∧ Forall (has_shape n sh) xt) x →
  (0 < Ns)%nat →
  ∃ y, max_dim1 n x = Ok y ∧ length y = T ∧ Forall (has_shape n sh) y
       ∧ Forall2 (λ xt yt, max_dim0 n xt = Ok yt) x y.
Proof.
  intros HT Hx HNs. unfold max_dim1. revert T HT.
  induction Hx as [|xt x [Hl Hxt] _ IH]; intros T HT.
  - exists []. simpl in *. by repeat split; try constructor.
  - destruct (has_shape_max_dim0 n sh xt Hxt) as (yt & Hyt & Hsh).
    { intros ->. simpl in Hl. lia. }
    destruct (IH (length x) eq_refl) as (y & Hy & Hly & Hys & Hrows).
    exists (yt :: y). simpl. rewrite Hyt. simpl. rewrite Hy. simpl in *.
    repeat split; try by constructor. lia.
Qed.

Lemma column_has_shape {A} (n Ns : nat) (sh p : list nat) (x : list (tensor A n)) :
  Forall (has_shape n sh) x → Forall2 lt p sh →
  ∃ col, column n p x = Some col ∧ length col = length x.
Proof.
  intros Hx Hp. destruct (mapM_is_Some_2 (tget n p) x) as [col Hcol].
  { eapply Forall_impl; [exact Hx|]. intros xi Hxi. by eapply tget_has_shape. }
  exists col. split; [done|]. symmetry. by eapply length_mapM.
Qed.

(** C7: with a mask, the source branch of [max] returns at every output
    index [(t, b, c)] the maximum of [x[t, s, b, c]] over the source
    positions [s] that row [b] of the mask leaves unmasked, and minus
    infinity when the row masks every position. *)
Theorem max_source_respects_mask (T S B C : nat) (x : tensor4) (mask : byte_mask)
  (incremental_state : option container) :
  has_shape 4 [T; S; B; C] x → has_shape 2 [B; S] mask →
  (0 < S)%nat → (0 < B)%nat →
  ∃ y : tensor3,
    max_reduce_src x (Some mask) incremental_state = (Ok (mkTensor 3 y), incremental_state)
    ∧ has_shape 3 [T; B; C] y
    ∧ ∀ t b c, (t < T)%nat → (b < B)%nat → (c < C)%nat →
        ∃ xt row col,
          x !! t = Some xt ∧ mask !! b = Some row
          ∧ column 2 [b; c] xt = Some col ∧ length col = S
          ∧ tget 3 [t; b; c] y = Some (fmax_list (unmasked row col))
          ∧ (unmasked row col ≠ [] → fmax_list (unmasked row col) ∈ unmasked row col)
          ∧ (Forall (λ a, is_nan a = false) (unmasked row col) →
               Forall (λ a, fle a (fmax_list (unmasked row col))) (unmasked row col))
          ∧ (Forall (λ m, m = true) row → tget 3 [t; b; c] y = Some NInf).
Proof.
  intros Hx Hmask HS HB.
  pose proof (masked_fill_expand_mask T S B C x mask NInf Hx Hmask HB) as Hfill.
  pose proof (filled_has_shape T S B C x mask NInf Hx Hmask HB) as [HfT Hfrows].
  destruct (max_dim1_rows 2 T S [B; C] (filled NInf x (transpose mask)) HfT)
    as (y & Hy & HyT & Hyrows & Hmax); [|done|].
  { eapply Forall_impl; [exact Hfrows|]. by intros ft [? ?]. }
  exists y. split; [|split].
  - unfold max_reduce_src. rewrite Hfill. cbn [mbind result_bind]. by rewrite Hy.
  - by split.
  - intros t b c Ht Hb Hc.
    destruct Hx as [HxT Hxrows]. destruct Hmask as [HmB Hmrows].
    destruct (lookup_lt_is_Some_2 x t) as [xt Hxt]; [lt_len Ht HxT|].
    destruct (lookup_lt_is_Some_2 mask b) as [row Hrow]; [lt_len Hb HmB|].
    destruct (proj1 (Forall_lookup _ _) Hxrows _ _ Hxt) as [HxtS Hxs].
    destruct (column_has_shape 2 S [B; C] [b; c] xt Hxs) as (col & Hcol & Hlcol).
    { by repeat constructor. }
    assert (Hmlen : Forall (λ r : list bool, length r = S) mask).
    { eapply Forall_impl; [exact Hmrows|]. by intros r [? _]. }
    destruct (transpose_shape B S mask HmB Hmlen HB) as [Hl _].
    pose proof (column_filled NInf S xt mask b c col row Hmlen Hl HxtS Hcol Hrow) as Hfcol.
    assert (Hft : filled NInf x (transpose mask) !! t
                  = Some (zip_with (zip_with (λ (xb : tensor1) (m : bool),
                                               map (λ a, if m then NInf else a) xb))
                            xt (transpose mask))).
    { unfold filled. by rewrite list_lookup_fmap, Hxt. }
    destruct (Forall2_lookup_l _ _ _ _ _ Hmax Hft) as (yt & Hyt & Hmaxt).
    pose proof (max_dim0_column 2 [b; c] _ yt _ Hfcol Hmaxt) as Hget.
    rewrite fmax_list_unmasked in Hget.
    assert (Hget3 : tget 3 [t; b; c] y = Some (fmax_list (unmasked row col))).
    { change (tget 3 [t; b; c] y) with (y !! t ≫= tget 2 [b; c]). by rewrite Hyt. }
    exists xt, row, col.
    split; [done|]. split; [done|]. split; [done|].
    split; [exact (eq_trans Hlcol HxtS)|]. split; [done|].
    split; [apply fmax_list_elem|]. split; [intros Hnan; by apply fmax_list_upper|].
    intros Hall. by rewrite Hget3, unmasked_all_masked.
Qed.

(** ** Rounding *)

Lemma round_between (lo hi r : R) :
  round lo = Fin lo → round hi = Fin hi → lo <= r <= hi →
  ∃ q, round r = Fin q ∧ lo <= q <= hi ∧ round q = Fin q.
Proof.
  intros Hlo Hhi [H1 H2].
  pose proof (round_monotone lo r H1) as Hl. rewrite Hlo in Hl.
  pose proof (round_monotone r hi H2) as Hh. rewrite Hhi in Hh.
  destruct (round r) as [| |q|] eqn:Hq; try done.
  exists q. split; [done|]. split; [by split|]. by eapply round_idempotent.
Qed.

Lemma round_above (t r : R) :
  round t = Fin t → t <= r →
  round r = PInf ∨ ∃ q, round r = Fin q ∧ t <= q ∧ round q = Fin q.
Proof.
  intros Ht Hr. pose proof (round_monotone t r Hr) as Hl. rewrite Ht in Hl.
  destruct (round r) as [| |q|] eqn:Hq; try done; [|by left].
  right. exists q. split; [done|]. split; [done|]. by eapply round_idempotent.
Qed.

Lemma round_below (t r : R) :
  round t = Fin t → r <= t →
  round r = NInf ∨ ∃ q, round r = Fin q ∧ q <= t.
Proof.
  intros Ht Hr. pose proof (round_monotone r t Hr) as Hl. rewrite Ht in Hl.
  destruct (round r) as [| |q|] eqn:Hq; try done; [by left|].
  right. by exists q.
Qed.

(** ** Softmax over one column *)

Lemma fmax_good (a b : scalar) :
  is_fin a ∨ a = NInf → is_fin b ∨ b = NInf →
  (is_fin (fmax a b) ∨ fmax a b = NInf)
  ∧ (is_fin a ∨ is_fin b → is_fin (fmax a b)).
Proof.
  destruct a, b; simpl; intros Ha Hb; split;
    intuition (try done; try discriminate; auto).
Qed.

Lemma foldl_fmax_good (a : scalar) (c : list scalar) :
  Forall (λ a, is_fin a ∨ a = NInf) (a :: c) → Exists is_fin (a :: c) →
  is_fin (foldl fmax a c).
Proof.
  revert a. induction c as [|b c IH]; intros a Hall Hex; simpl.
  - apply Exists_cons in Hex as [?|Hex]; [done|by apply Exists_nil in Hex].
  - apply Forall_cons in Hall as [Ha Hall]. pose proof Hall as Hall'.
    apply Forall_cons in Hall' as [Hb Hc].
    destruct (fmax_good a b Ha Hb) as [Hab Hfin].
    apply IH.
    + by constructor.
    + apply Exists_cons in Hex as [Hfa|Hex]; [left; auto|].
      apply Exists_cons in Hex as [Hfb|Hex]; [left; auto|by right].
Qed.

Lemma is_float_fin (a : scalar) : is_float a → is_fin a.
Proof. by destruct a. Qed.

Lemma softmax_dim0_scalars (a : scalar) (c : list scalar) :
  softmax_dim0 0 (a :: c)
  = map (λ ei, fdiv ei (sum_dim0 0 (map (λ u, fexp (fsub u (foldl fmax a c))) (a :: c))))
      (map (λ u, fexp (fsub u (foldl fmax a c))) (a :: c)).
Proof. reflexivity. Qed.

(** The exponential of a logit shifted by the maximum of its column. *)
Lemma fexp_fsub_probability (a m : scalar) :
  is_float a ∨ a = NInf → is_float m → fle a m → probability (fexp (fsub a m)).
Proof.
  intros Ha Hm Hle. destruct m as [| |M|]; try done.
  destruct Ha as [Ha| ->].
  - destruct a as [| |r|]; try done. simpl in Hle.
    change (fsub (Fin r) (Fin M)) with (round (r + - M)).
    destruct (round_below 0 (r + - M)) as [Hq|(q & Hq & Hq0)];
      [apply round_0|lra| |]; rewrite Hq; simpl.
    + split; [lra|apply round_0].
    + by apply expf_nonpos.
  - simpl. split; [lra|apply round_0].
Qed.

Lemma fexp_fsub_self (m : scalar) : is_float m → fexp (fsub m m) = Fin 1.
Proof.
  destruct m as [| |M|]; try done. intros _.
  change (fsub (Fin M) (Fin M)) with (round (M + - M)).
  rewrite Rplus_opp_r, round_0. simpl. apply expf_0.
Qed.

(** The sum of the exponentials: plus infinity or a number, at least 1
    once the exponential of the maximum itself has been added. *)
Lemma fadd_at_least (t : R) (a b : scalar) :
  at_least t a → probability b → at_least t (fadd a b).
Proof.
  destruct a as [| |q|], b as [| |e|]; try done.
  intros [Hq Hfq] [[He0 He1] Hfe]. simpl.
  destruct (round_above q (q + e) Hfq) as [Hr|(q' & Hr & Hq' & Hf')];
    [lra| |]; rewrite Hr; simpl; [done|].
  split; [lra|done].
Qed.

Lemma fadd_at_least_one (a : scalar) : at_least 0 a → at_least 1 (fadd a (Fin 1)).
Proof.
  destruct a as [| |q|]; try done. intros [Hq Hfq]. simpl.
  destruct (round_above 1 (q + 1) round_1) as [Hr|(q' & Hr & Hq' & Hf')];
    [lra| |]; rewrite Hr; simpl; [done|].
  by split.
Qed.

Lemma probability_at_least (a : scalar) : probability a → at_least 0 a.
Proof. destruct a as [| |q|]; try done. by intros [[? ?] ?]. Qed.

Lemma foldl_fadd_at_least (t : R) (acc : scalar) (es : list scalar) :
  at_least t acc → Forall probability es → at_least t (foldl fadd acc es).
Proof.
  intros Hacc Hes. revert acc Hacc.
  induction Hes as [|e es He _ IH]; intros acc Hacc; simpl; [done|].
  apply IH. by apply fadd_at_least.
Qed.

Lemma foldl_fadd_at_least_one (acc : scalar) (es : list scalar) :
  at_least 0 acc → Forall probability es → Fin 1 ∈ es →
  at_least 1 (foldl fadd acc es).
Proof.
  intros Hacc Hes. revert acc Hacc.
  induction Hes as [|e es He Hes IH]; intros acc Hacc Hin; simpl.
  - by apply elem_of_nil in Hin.
  - apply elem_of_cons in Hin as [<-|Hin].
    + apply foldl_fadd_at_least; [|done]. by apply fadd_at_least_one.
    + apply IH; [|done]. by apply fadd_at_least.
Qed.

Lemma sum_at_least_one (e : list scalar) :
  Forall probability e → Fin 1 ∈ e → at_least 1 (sum_dim0 0 e).
Proof.
  intros He Hin. destruct He as [|e0 es He0 Hes]; [by apply elem_of_nil in Hin|].
  change (sum_dim0 0 (e0 :: es)) with (foldl fadd e0 es).
  apply elem_of_cons in Hin as [<-|Hin].
  - apply foldl_fadd_at_least; [|done]. split; [lra|apply round_1].
  - apply foldl_fadd_at_least_one; [by apply probability_at_least|done|done].
Qed.

Lemma fdiv_probability (e s : scalar) :
  probability e → at_least 1 s → probability (fdiv e s).
Proof.
  destruct e as [| |e|], s as [| |t|]; try done.
  - intros [[He0 He1] _] [Ht _]. simpl. rewrite sgn_pos by lra.
    assert (H0 : 0 < / t) by (apply Rinv_0_lt_compat; lra).
    assert (H1 : / t <= 1).
    { rewrite <- Rinv_1. apply Rinv_le_contravar; lra. }
    destruct (round_between 0 1 (e / t) round_0 round_1) as (q & Hq & Hq01 & Hfq).
    { unfold Rdiv. nra. }
    rewrite Hq. by split.
  - intros _ _. simpl. split; [lra|apply round_0].
Qed.

(** On logits that are float32 numbers or minus infinity, one of them a
    number, softmax gives float32 numbers between 0 and 1. *)
Lemma softmax_column_probability (c : list scalar) :
  good_logits c → Forall probability (softmax_dim0 0 c).
Proof.
  intros [Hall Hex]. destruct c as [|a c]; [by apply Exists_nil in Hex|].
  rewrite softmax_dim0_scalars.
  assert (Hfin : is_fin (foldl fmax a c)).
  { apply foldl_fmax_good.
    - eapply Forall_impl; [exact Hall|].
      intros u [Hu|Hu]; [left; by apply is_float_fin|by right].
    - eapply Exists_impl; [exact Hex|]. apply is_float_fin. }
  rewrite foldl_fmax_list in *.
  set (l := a :: c) in *. set (m := fmax_list l) in *.
  assert (Hin : m ∈ l) by (by apply fmax_list_elem).
  assert (Hm : is_float m).
  { destruct (proj1 (Forall_forall _ _) Hall m Hin) as [?|Heq]; [done|].
    rewrite Heq in Hfin. done. }
  assert (Hup : Forall (λ u, fle u m) l).
  { apply fmax_list_upper. eapply Forall_impl; [exact Hall|].
    intros u [Hu| ->]; [by destruct u|done]. }
  set (E := map (λ u, fexp (fsub u m)) l).
  assert (HE : Forall probability E).
  { apply Forall_fmap, Forall_forall. intros u Hu. simpl.
    apply fexp_fsub_probability; [|done|].
    - by apply (proj1 (Forall_forall _ _) Hall).
    - by apply (proj1 (Forall_forall _ _) Hup). }
  assert (H1 : Fin 1 ∈ E).
  { apply list_elem_of_fmap. exists m. split; [|done].
    symmetry. by apply fexp_fsub_self. }
  pose proof (sum_at_least_one E HE H1) as Hs.
  apply Forall_fmap. eapply Forall_impl; [exact HE|].
  intros e He. simpl. by apply fdiv_probability.
Qed.

Lemma column_map_tmap2 (f : scalar → scalar → scalar) (n : nat) (p : list nat)
  (x : list (tensor scalar n)) (y : tensor scalar n) (c : list scalar) (b : scalar) :
  column n p x = Some c → tget n p y = Some b →
  column n p (map (λ xi, tmap2 f n xi y) x) = Some (map (λ a, f a b) c).
Proof.
  unfold column. intros Hc Hy. apply mapM_Some in Hc. apply mapM_Some.
  apply Forall2_fmap. eapply Forall2_impl; [exact Hc|].
  intros xi a Ha. simpl. by apply tget_tmap2.
Qed.

Lemma sum_dim0_column (n : nat) (p : list nat) (x : list (tensor scalar n))
  (c : list scalar) :
  x ≠ [] → column n p x = Some c → tget n p (sum_dim0 n x) = Some (sum_dim0 0 c).
Proof.
  destruct x as [|r rs]; [done|]. intros _. unfold column. simpl.
  destruct (tget n p r) as [a|] eqn:Ha; simpl; [|done].
  destruct (mapM (tget n p) rs) as [vs|] eqn:Hvs; simpl; [|done].
  intros [= <-]. simpl. by apply tget_foldl_tmap2.
Qed.

(** Softmax along the first axis works column by column. *)
Lemma column_softmax_dim0 (n : nat) (p : list nat) (x : list (tensor scalar n))
  (c : list scalar) :
  column n p x = Some c →
  column n p (softmax_dim0 n x) = Some (softmax_dim0 0 c).
Proof.
  intros Hc. destruct x as [|r rs].
  { injection Hc as <-. done. }
  assert (Hc' := Hc). unfold column in Hc'. simpl in Hc'.
  destruct (tget n p r) as [a|] eqn:Ha; simpl in Hc'; [|done].
  destruct (mapM (tget n p) rs) as [vs|] eqn:Hvs; simpl in Hc'; [|done].
  injection Hc' as <-.
  unfold softmax_dim0.
  set (m := foldl (tmap2 fmax n) r rs).
  assert (Hm : tget n p m = Some (foldl fmax a vs)) by (by apply tget_foldl_tmap2).
  set (e := map (λ xi, tmap2 (λ u v, fexp (fsub u v)) n xi m) (r :: rs)).
  pose proof (column_map_tmap2 (λ u v, fexp (fsub u v)) n p (r :: rs) m
                (a :: vs) _ Hc Hm) as He.
  fold e in He.
  assert (Hs : tget n p (sum_dim0 n e) = Some (sum_dim0 0 (map (λ u, fexp (fsub u (foldl fmax a vs))) (a :: vs)))).
  { by apply sum_dim0_column. }
  exact (column_map_tmap2 fdiv n p e _ _ _ He Hs).
Qed.

Lemma column_tall {A} (P : A → Prop) (n : nat) (p : list nat) (x : list (tensor A n))
  (col : list A) :
  Forall (tall P n) x → column n p x = Some col → Forall P col.
Proof.
  intros Hx Hcol. unfold column in Hcol. apply mapM_Some in Hcol.
  induction Hcol as [|xi a x col Ha _ IH]; [done|].
  apply Forall_cons in Hx as [Hxi Hx]. constructor; [|by apply IH].
  by eapply (proj1 (tall_tget P n xi) Hxi).
Qed.

(** ** Softmax over an axis *)

(** When every column of logits is good, the softmax along the first axis
    holds float32 numbers between 0 and 1. *)
Lemma softmax_tall_probability (n : nat) (sh : list nat) (x : list (tensor scalar n)) :
  Forall (has_shape n sh) x →
  (∀ p col, Forall2 lt p sh → column n p x = Some col → good_logits col) →
  Forall (tall probability n) (softmax_dim0 n x).
Proof.
  intros Hx Hgood. destruct (has_shape_softmax_dim0 n sh x Hx) as [Hp Hplen].
  apply Forall_lookup. intros i pi Hpi. apply (tall_tget probability n). intros p a Ha.
  pose proof (proj1 (Forall_lookup _ _) Hp _ _ Hpi) as Hpish.
  pose proof (tget_in_bounds n sh p pi a Hpish Ha) as Hb.
  destruct (column_has_shape n 0 sh p x Hx Hb) as (col & Hcol & _).
  pose proof (column_softmax_dim0 n p x col Hcol) as Hpcol.
  unfold column in Hpcol. apply mapM_Some in Hpcol.
  destruct (Forall2_lookup_l _ _ _ _ _ Hpcol Hpi) as (a' & Ha' & Hget).
  assert (E : Some a' = Some a) by exact (eq_trans (eq_sym Hget) Ha).
  injection E as <-.
  exact (proj1 (Forall_lookup _ _)
           (softmax_column_probability col (Hgood p col Hb Hcol)) _ _ Ha').
Qed.

(** Logits that are all float32 numbers, and logits masked with minus
    infinity. *)
Lemma good_logits_fin (col : list scalar) :
  Forall is_float col → col ≠ [] → good_logits col.
Proof.
  intros Hcol Hne. split.
  - eapply Forall_impl; [exact Hcol|]. by left.
  - destruct Hcol; [done|]. by left.
Qed.


Lemma softmax_floats_probability (n : nat) (sh : list nat) (x : list (tensor scalar n)) :
  Forall (has_shape n sh) x → Forall (tall is_float n) x →
  Forall (tall probability n) (softmax_dim0 n x).
Proof.
  intros Hx Hfl. destruct x as [|r rs]; [constructor|].
  apply (softmax_tall_probability n sh); [done|].
  intros p col Hp Hcol. apply good_logits_fin.
  - by eapply (column_tall is_float n).
  - intros ->. unfold column in Hcol. by apply length_mapM in Hcol.
Qed.

(** ** Weighted sums *)

Lemma fmul_float (p x : scalar) : probability p → is_float x → is_float (fmul p x).
Proof.
  destruct p as [| |p|], x as [| |x|]; try done.
  intros [[Hp0 Hp1] _] Hx. simpl in *.
  destruct (Rle_or_lt 0 x) as [Hpos|Hneg].
  - destruct (round_between 0 x (p * x) round_0 Hx) as (q & Hq & _ & Hfq); [nra|].
    by rewrite Hq.
  - destruct (round_between x 0 (p * x) Hx round_0) as (q & Hq & _ & Hfq); [nra|].
    by rewrite Hq.
Qed.

Lemma fadd_not_nan (a b : scalar) :
  is_nan a = false → is_float b → is_nan (fadd a b) = false.
Proof.
  destruct a as [| |x|], b as [| |y|]; try done. intros _ _. apply round_not_nan.
Qed.

Lemma tall_foldl_tmap2_acc {A B} (P : A → Prop) (Q : B → Prop) (f : A → B → A)
  (n : nat) (r : tensor A n) (rs : list (tensor B n)) :
  (∀ u v, P u → Q v → P (f u v)) →
  tall P n r → Forall (tall Q n) rs → tall P n (foldl (tmap2 f n) r rs).
Proof.
  intros Hf Hr Hrs. revert r Hr.
  induction Hrs as [|r' rs Hr' _ IH]; intros r Hr; simpl; [done|].
  apply IH. by eapply tall_tmap2.
Qed.

Lemma any_nan_not_nan (n : nat) (t : tensor scalar n) :
  tall (λ a, is_nan a = false) n t → any_nan n t = false.
Proof.
  revert t. induction n as [|k IH]; intros t; simpl; [done|].
  induction 1 as [|r rs Hr _ IHrs]; simpl; [done|]. by rewrite IH.
Qed.

Lemma any_nan_probability (n : nat) (t : tensor scalar n) :
  tall probability n t → any_nan n t = false.
Proof.
  intros Ht. apply any_nan_not_nan. eapply tall_impl; [|exact Ht].
  intros a. by destruct a.
Qed.

(** A sum of float32 numbers may overflow to an infinity; it is not NaN. *)
Lemma sum_dim0_not_nan (n : nat) (x : list (tensor scalar n)) :
  Forall (tall is_float n) x → tall (λ a, is_nan a = false) n (sum_dim0 n x).
Proof.
  intros Hx. destruct Hx as [|r rs Hr Hrs]; simpl.
  - destruct n; simpl; [done|constructor].
  - apply (tall_foldl_tmap2_acc (λ a, is_nan a = false) is_float);
      [apply fadd_not_nan| |done].
    eapply tall_impl; [|exact Hr]. intros a. by destruct a.
Qed.


(** ** The probabilities of the source branches *)




(** *** The logits of [attn] *)



(** *** Normalisation, in the arithmetic of the reals *)









(** ** Training and decoding of [softmax] *)




(** On float32 numbers the assertion of the decoding branch passes, and
    the weighted sum it returns is not NaN. *)
Lemma softmax_floats_no_nan (sh : list nat) (b : tensor4) :
  Forall (has_shape 3 sh) b → Forall (tall is_float 3) b →
  any_nan 4 (softmax_dim0 3 b) = false ∧ any_nan 3 (weighted_sum b) = false.
Proof.
  intros Hb Hbf. pose proof (softmax_floats_probability 3 sh b Hb Hbf) as Hp.
  split; [by apply (any_nan_probability 4)|].
  apply any_nan_not_nan, sum_dim0_not_nan.
  exact (tall_tmap2 probability is_float is_float fmul 4 _ b fmul_float Hp Hbf).
Qed.



(** ** Ranks and shapes of the outputs *)

















(** * Further properties of the module *)

(** ** Reordering the buffered state *)

Lemma mapM_index_ok {A} (xs : list A) (order : list nat) :
  Forall (λ i, (i < length xs)%nat) order →
  mapM (index xs) order = Ok (omap (λ i, xs !! i) order)
  ∧ length (omap (λ i, xs !! i) order) = length order.
Proof.
  induction 1 as [|i order Hi _ [IH IHl]]; [done|].
  destruct (lookup_lt_is_Some_2 xs i Hi) as [a Ha].
  change (mapM (index xs) (i :: order))
    with (y ← index xs i; k ← mapM (index xs) order; mret (y :: k)).
  change (omap (λ i, xs !! i) (i :: order))
    with (match xs !! i with
          | Some y => y :: omap (λ i, xs !! i) order
          | None => omap (λ i, xs !! i) order
          end).
  assert (Hidx : index xs i = Ok a) by (unfold index; by rewrite Ha).
  rewrite Hidx, Ha, IH. split; [done|].
  simpl. by rewrite IHl.
Qed.

Lemma lookup_omap_lookup {A} (xs : list A) (order : list nat) (j i : nat) :
  Forall (λ i, (i < length xs)%nat) order → order !! j = Some i →
  omap (λ i, xs !! i) order !! j = xs !! i.
Proof.
  intros Hall. revert j. induction Hall as [|i0 order Hi0 _ IH]; intros j Hj; [done|].
  destruct (lookup_lt_is_Some_2 xs i0 Hi0) as [a Ha].
  change (omap (λ i, xs !! i) (i0 :: order))
    with (match xs !! i0 with
          | Some y => y :: omap (λ i, xs !! i) order
          | None => omap (λ i, xs !! i) order
          end).
  rewrite Ha. destruct j as [|j]; simpl in Hj.
  - injection Hj as <-. by rewrite Ha.
  - by apply IH.
Qed.

Lemma index_select2_ok (T Ns B C : nat) (x : tensor4) (order : list nat) :
  has_shape 4 [T; Ns; B; C] x → Forall (λ i, (i < B)%nat) order →
  index_select2 x order = Ok (batch_select x order)
  ∧ has_shape 4 [T; Ns; length order; C] (batch_select x order).
Proof.
  intros [HT Hx] Horder. unfold index_select2, batch_select.
  assert (Hrow : ∀ xs : tensor2, has_shape 2 [B; C] xs →
            mapM (index xs) order = Ok (omap (λ i, xs !! i) order)
            ∧ has_shape 2 [length order; C] (omap (λ i, xs !! i) order)).
  { intros xs [HB Hxs].
    assert (Hvalid : Forall (λ i, (i < length xs)%nat) order).
    { eapply Forall_impl; [exact Horder|]. intros i Hi. lt_len Hi HB. }
    destruct (mapM_index_ok xs order Hvalid) as [Hok Hlen].
    split; [done|]. split; [done|].
    apply Forall_lookup. intros j row Hj.
    destruct (lookup_lt_is_Some_2 order j) as [i Hi].
    { rewrite <- Hlen. by eapply lookup_lt_Some. }
    pose proof (eq_trans (eq_sym (lookup_omap_lookup xs order j i Hvalid Hi)) Hj) as Hi'.
    by apply (proj1 (Forall_lookup _ _) Hxs _ _ Hi'). }
  split.
  - apply mapM_Ok_map. eapply Forall_impl; [exact Hx|]. intros xt [_ Hxt].
    apply mapM_Ok_map. eapply Forall_impl; [exact Hxt|]. intros xs Hxs.
    by apply Hrow.
  - split; [by rewrite length_map|].
    apply Forall_fmap. eapply Forall_impl; [exact Hx|]. intros xt [HS Hxt].
    split; [by rewrite length_map|].
    apply Forall_fmap. eapply Forall_impl; [exact Hxt|]. intros xs Hxs.
    by apply Hrow.
Qed.

Lemma batch_select_entry (T Ns B C : nat) (x : tensor4) (order : list nat)
  (t s j c i : nat) :
  has_shape 4 [T; Ns; B; C] x → Forall (λ i, (i < B)%nat) order →
  order !! j = Some i →
  tget 4 [t; s; j; c] (batch_select x order) = tget 4 [t; s; i; c] x.
Proof.
  intros [_ Hx] Horder Hj. unfold batch_select.
  change (tget 4 [t; s; j; c] ?y) with (y !! t ≫= tget 3 [s; j; c]).
  change (tget 4 [t; s; i; c] x) with (x !! t ≫= tget 3 [s; i; c]).
  rewrite list_lookup_fmap. destruct (x !! t) as [xt|] eqn:Hxt; [|done].
  destruct (proj1 (Forall_lookup _ _) Hx _ _ Hxt) as [_ Hxt'].
  cbn [fmap option_fmap option_map mbind option_bind].
  change (tget 3 [s; j; c] ?y) with (y !! s ≫= tget 2 [j; c]).
  change (tget 3 [s; i; c] xt) with (xt !! s ≫= tget 2 [i; c]).
  rewrite list_lookup_fmap. destruct (xt !! s) as [xs|] eqn:Hxs; [|done].
  destruct (proj1 (Forall_lookup _ _) Hxt' _ _ Hxs) as [HB _].
  cbn [fmap option_fmap option_map mbind option_bind].
  assert (Hvalid : Forall (λ i, (i < length xs)%nat) order).
  { eapply Forall_impl; [exact Horder|]. intros k Hk. lt_len Hk HB. }
  exact (f_equal (λ o : option tensor1, o ≫= tget 1 [c])
           (lookup_omap_lookup xs order j i Hvalid Hj)).
Qed.

Lemma reorder_keys_ok (order : list nat) (g : tensor4 → tensor4) (keys : list string) :
  NoDup keys →
  ∀ d : saved_state,
  (∀ k, k ∈ keys → ∃ v, d !! k = Some v ∧ index_select2 v order = Ok (g v)) →
  ∃ d' : saved_state,
    reorder_keys keys order d = (d', None)
    ∧ ∀ j, d' !! j = if decide (j ∈ keys) then g <$> d !! j else d !! j.
Proof.
  induction 1 as [|k keys Hk Hnd IH]; intros d Hd.
  - exists d. split; [done|]. intros j. rewrite decide_False; [done|].
    apply not_elem_of_nil.
  - destruct (Hd k) as (v & Hv & Hsel); [by left|].
    destruct (IH (<[k := g v]> d)) as (d' & Hd' & Hlook).
    { intros k' Hk'. destruct (Hd k') as (v' & Hv' & Hsel'); [by right|].
      exists v'. split; [|done]. rewrite lookup_insert_ne; [done|].
      intros ->. done. }
    exists d'. split.
    { cbn [reorder_keys]. by rewrite Hv, Hsel. }
    intros j. rewrite Hlook. destruct (decide (j = k)) as [->|Hne].
    + rewrite decide_False by done. rewrite decide_True by (by left).
      by rewrite lookup_insert_eq, Hv.
    + rewrite lookup_insert_ne by done.
      destruct (decide (j ∈ keys)) as [Hin|Hnin].
      * rewrite decide_True by (by right). done.
      * rewrite decide_False; [done|]. intros [?|?]%elem_of_cons; done.
Qed.

Lemma reorder_with_buffer (self Ns B C : nat) (st : container) (d : saved_state)
  (new_order : list nat) :
  st !! (self, "repr_state") = Some d →
  (∀ k v, d !! k = Some v → ∃ T, has_shape 4 [T; Ns; B; C] v) →
  Forall (λ i, (i < B)%nat) new_order →
  reorder_incremental_state self (Some st) new_order
  = (Ok (), Some (<[(self, "repr_state") := (λ v, batch_select v new_order) <$> d]> st)).
Proof.
  intros Hd Hshape Horder.
  destruct (reorder_keys_ok new_order (λ v, batch_select v new_order)
              (map fst (map_to_list d)) (NoDup_fst_map_to_list d) d)
    as (d' & Hkeys & Hlook).
  { intros k Hk. apply list_elem_of_fmap in Hk as ([k' v] & -> & Hkv).
    apply elem_of_map_to_list in Hkv. exists v. split; [done|].
    destruct (Hshape _ _ Hkv) as [T Hv].
    by destruct (index_select2_ok T Ns B C v new_order Hv Horder). }
  assert (Hd' : d' = (λ v, batch_select v new_order) <$> d).
  { apply map_eq. intros j. rewrite Hlook, lookup_fmap. case_decide as Hin; [done|].
    destruct (d !! j) as [v|] eqn:Hv; [|done]. exfalso. apply Hin.
    apply list_elem_of_fmap. exists (j, v). split; [done|].
    by apply elem_of_map_to_list. }
  subst d'.
  unfold reorder_incremental_state. rewrite _get_input_buffer_dict.
  unfold get_incremental_state. rewrite Hd. cbn [default].
  match goal with
  | |- context [reorder_keys ?a ?b ?c] =>
      assert (E : reorder_keys a b c = ((λ v, batch_select v new_order) <$> d, None))
        by exact Hkeys;
      rewrite E
  end.
  done.
Qed.

(** X1: when the instance has a buffer whose tensors are [.. x S x B x C]
    and every index of [new_order] is below [B], reordering succeeds,
    replaces every buffered tensor by the tensor whose batch row [j] is the
    old batch row [new_order[j]] (the other axes keep their sizes), and
    leaves the entries of every other instance untouched. *)
Theorem reorder_permutes_batch (self Ns B C : nat) (st : container) (d : saved_state)
  (new_order : list nat) :
  st !! (self, "repr_state") = Some d →
  (∀ k v, d !! k = Some v → ∃ T, has_shape 4 [T; Ns; B; C] v) →
  Forall (λ i, (i < B)%nat) new_order →
  ∃ (st' : container) (d' : saved_state),
    reorder_incremental_state self (Some st) new_order = (Ok (), Some st')
    ∧ st' !! (self, "repr_state") = Some d'
    ∧ (∀ k, k ≠ (self, "repr_state") → st' !! k = st !! k)
    ∧ ∀ k v, d !! k = Some v →
        ∃ v' : tensor4, d' !! k = Some v'
          ∧ index_select2 v new_order = Ok v'
          ∧ (∀ T, has_shape 4 [T; Ns; B; C] v →
               has_shape 4 [T; Ns; length new_order; C] v')
          ∧ ∀ t s j c i, new_order !! j = Some i →
              tget 4 [t; s; j; c] v' = tget 4 [t; s; i; c] v.
Proof.
  intros Hd Hshape Horder.
  exists (<[(self, "repr_state") := (λ v, batch_select v new_order) <$> d]> st),
         ((λ v, batch_select v new_order) <$> d).
  split; [by eapply reorder_with_buffer|]. split; [apply lookup_insert_eq|].
  split; [intros k Hk; by apply lookup_insert_ne|].
  intros k v Hv. exists (batch_select v new_order).
  destruct (Hshape _ _ Hv) as [T0 Hv0].
  destruct (index_select2_ok T0 Ns B C v new_order Hv0 Horder) as [Hsel _].
  split; [by rewrite lookup_fmap, Hv|]. split; [done|]. split.
  - intros T Hv'. by destruct (index_select2_ok T Ns B C v new_order Hv' Horder).
  - intros t s j c i Hj. by eapply batch_select_entry.
Qed.

Lemma omap_lookup_ext {A} (xs ys : list A) (order order' : list nat) :
  Forall (λ i, (i < length xs)%nat) order →
  Forall (λ i, (i < length ys)%nat) order' →
  length order = length order' →
  (∀ j i i', order !! j = Some i → order' !! j = Some i' → xs !! i = ys !! i') →
  omap (λ i, xs !! i) order = omap (λ i, ys !! i) order'.
Proof.
  intros Hv Hv' Hlen Hpt.
  destruct (mapM_index_ok xs order Hv) as [_ Hl].
  destruct (mapM_index_ok ys order' Hv') as [_ Hl'].
  apply list_eq. intros j.
  destruct (order !! j) as [i|] eqn:Hi.
  - destruct (lookup_lt_is_Some_2 order' j) as [i' Hi'].
    { rewrite <- Hlen. by eapply lookup_lt_Some. }
    rewrite (lookup_omap_lookup xs order j i Hv Hi).
    rewrite (lookup_omap_lookup ys order' j i' Hv' Hi'). by eapply Hpt.
  - apply lookup_ge_None_1 in Hi.
    rewrite !lookup_ge_None_2; [done| |]; lia.
Qed.

Lemma omap_lookup_seq {A} (xs : list A) :
  omap (λ i, xs !! i) (seq 0 (length xs)) = xs.
Proof.
  assert (Hv : Forall (λ i, (i < length xs)%nat) (seq 0 (length xs))).
  { apply Forall_forall. intros i Hi. apply elem_of_seq in Hi. lia. }
  destruct (mapM_index_ok xs _ Hv) as [_ Hl]. rewrite length_seq in Hl.
  apply list_eq. intros j. destruct (decide (j < length xs)%nat) as [Hj|Hj].
  - apply (lookup_omap_lookup xs _ j j Hv). by apply lookup_seq_lt.
  - rewrite !lookup_ge_None_2; [done| |]; lia.
Qed.

Lemma batch_select_id (T Ns B C : nat) (x : tensor4) :
  has_shape 4 [T; Ns; B; C] x → batch_select x (seq 0 B) = x.
Proof.
  intros [_ Hx]. unfold batch_select. rewrite <- (list_fmap_id x) at 2.
  apply Forall_fmap_ext_1. eapply Forall_impl; [exact Hx|]. intros xt [_ Hxt].
  rewrite <- (list_fmap_id xt) at 2.
  apply Forall_fmap_ext_1. eapply Forall_impl; [exact Hxt|]. intros xs [HB _].
  simpl. rewrite <- HB. apply omap_lookup_seq.
Qed.

Lemma batch_select_compose (T Ns B C : nat) (x : tensor4) (p q : list nat) :
  has_shape 4 [T; Ns; B; C] x →
  Forall (λ i, (i < B)%nat) p → Forall (λ i, (i < length p)%nat) q →
  batch_select (batch_select x p) q = batch_select x (omap (λ i, p !! i) q).
Proof.
  intros [_ Hx] Hp Hq. unfold batch_select. rewrite <- list_fmap_compose.
  apply Forall_fmap_ext_1. eapply Forall_impl; [exact Hx|]. intros xt [_ Hxt].
  simpl. rewrite <- list_fmap_compose.
  apply Forall_fmap_ext_1. eapply Forall_impl; [exact Hxt|]. intros xs [HB _].
  simpl.
  assert (Hvp : Forall (λ i, (i < length xs)%nat) p).
  { eapply Forall_impl; [exact Hp|]. intros k Hk. lt_len Hk HB. }
  destruct (mapM_index_ok xs p Hvp) as [_ Hlp].
  destruct (mapM_index_ok p q Hq) as [_ Hlq].
  apply omap_lookup_ext.
  - eapply Forall_impl; [exact Hq|]. intros k Hk. by rewrite Hlp.
  - apply Forall_lookup. intros j k Hjk.
    destruct (lookup_lt_is_Some_2 q j) as [i Hi].
    { rewrite <- Hlq. by eapply lookup_lt_Some. }
    rewrite (lookup_omap_lookup p q j i Hq Hi) in Hjk.
    by apply (proj1 (Forall_lookup _ _) Hvp _ _ Hjk).
  - by rewrite Hlq.
  - intros j i k Hi Hk. rewrite (lookup_omap_lookup p q j i Hq Hi) in Hk.
    by apply (lookup_omap_lookup xs p i k Hvp).
Qed.

(** X2: reordering with the identity order [0, 1, .., B-1] succeeds and
    leaves the whole container exactly as it was. *)
Theorem reorder_identity (self Ns B C : nat) (st : container) (d : saved_state) :
  st !! (self, "repr_state") = Some d →
  (∀ k v, d !! k = Some v → ∃ T, has_shape 4 [T; Ns; B; C] v) →
  reorder_incremental_state self (Some st) (seq 0 B) = (Ok (), Some st).
Proof.
  intros Hd Hshape.
  rewrite (reorder_with_buffer self Ns B C st d (seq 0 B) Hd Hshape).
  2:{ apply Forall_forall. intros i Hi. apply elem_of_seq in Hi. lia. }
  assert (Hid : (λ v, batch_select v (seq 0 B)) <$> d = d).
  { apply map_eq. intros j. rewrite lookup_fmap.
    destruct (d !! j) as [v|] eqn:Hv; [|done].
    destruct (Hshape _ _ Hv) as [T HT]. simpl. f_equal. by eapply batch_select_id. }
  rewrite Hid. by rewrite insert_id.
Qed.

(** X3: two reorderings in a row, by [p] and then by [q], leave the state
    that one reordering by the composed order [j ↦ p[q[j]]] leaves. *)
Theorem reorder_composes (self Ns B C : nat) (st : container) (d : saved_state)
  (p q : list nat) :
  st !! (self, "repr_state") = Some d →
  (∀ k v, d !! k = Some v → ∃ T, has_shape 4 [T; Ns; B; C] v) →
  Forall (λ i, (i < B)%nat) p → Forall (λ i, (i < length p)%nat) q →
  ∃ st1 st2 : container,
    reorder_incremental_state self (Some st) p = (Ok (), Some st1)
    ∧ reorder_incremental_state self (Some st1) q = (Ok (), Some st2)
    ∧ reorder_incremental_state self (Some st) (omap (λ i, p !! i) q) = (Ok (), Some st2).
Proof.
  intros Hd Hshape Hp Hq.
  set (key := (self, "repr_state")).
  assert (Hpq : Forall (λ i, (i < B)%nat) (omap (λ i, p !! i) q)).
  { destruct (mapM_index_ok p q Hq) as [_ Hlen].
    apply Forall_lookup. intros j k Hjk.
    destruct (lookup_lt_is_Some_2 q j) as [i Hi].
    { rewrite <- Hlen. by eapply lookup_lt_Some. }
    rewrite (lookup_omap_lookup p q j i Hq Hi) in Hjk.
    by apply (proj1 (Forall_lookup _ _) Hp _ _ Hjk). }
  exists (<[key := (λ v, batch_select v p) <$> d]> st),
         (<[key := (λ v, batch_select v (omap (λ i, p !! i) q)) <$> d]> st).
  split; [by eapply reorder_with_buffer|]. split; [|by eapply reorder_with_buffer].
  rewrite (reorder_with_buffer self Ns (length p) C _
             ((λ v, batch_select v p) <$> d) q).
  - rewrite insert_insert_eq. do 3 f_equal.
    rewrite <- map_fmap_compose. apply map_eq. intros j. rewrite !lookup_fmap.
    destruct (d !! j) as [v|] eqn:Hv; [|done].
    destruct (Hshape _ _ Hv) as [T HT]. simpl. f_equal.
    by eapply batch_select_compose.
  - apply lookup_insert_eq.
  - intros k v' Hv'. rewrite lookup_fmap in Hv'.
    destruct (d !! k) as [v|] eqn:Hv; [|done]. injection Hv' as <-.
    destruct (Hshape _ _ Hv) as [T HT]. exists T.
    by destruct (index_select2_ok T Ns B C v p HT Hp).
  - done.
Qed.

Lemma mapM_index_out_of_range {A} (xs : list A) (order : list nat) :
  Exists (λ i, (length xs ≤ i)%nat) order → mapM (index xs) order = Raise IndexError.
Proof.
  induction 1 as [i order Hi|i order _ IH].
  - change (mapM (index xs) (i :: order))
      with (y ← index xs i; k ← mapM (index xs) order; mret (y :: k)).
    unfold index. by rewrite (lookup_ge_None_2 xs i Hi).
  - change (mapM (index xs) (i :: order))
      with (y ← index xs i; k ← mapM (index xs) order; mret (y :: k)).
    rewrite IH. unfold index. by destruct (xs !! i).
Qed.

Lemma index_select2_out_of_range (T Ns B C : nat) (x : tensor4) (order : list nat) :
  has_shape 4 [T; Ns; B; C] x → (0 < T)%nat → (0 < Ns)%nat →
  Exists (λ i, (B ≤ i)%nat) order →
  index_select2 x order = Raise IndexError.
Proof.
  intros [HT Hx] HT0 HN0 Hbad. unfold index_select2.
  destruct x as [|xt x]; [simpl in HT; lia|].
  apply Forall_cons in Hx as [[HNs Hxt] _].
  destruct xt as [|xs xt]; [simpl in HNs; lia|].
  apply Forall_cons in Hxt as [[HB _] _].
  assert (Hrow : mapM (index xs) order = Raise IndexError).
  { apply mapM_index_out_of_range. eapply Exists_impl; [exact Hbad|].
    intros i Hi. simpl. eapply Nat.le_trans; [|exact Hi].
    apply Nat.eq_le_incl. exact HB. }
  change (mapM ?f ((xs :: xt) :: x))
    with (y ← (y' ← mapM (index xs) order; k' ← mapM (λ xs : tensor2, mapM (index xs) order) xt;
               mret (y' :: k'));
          k ← mapM f x; mret (y :: k)).
  by rewrite Hrow.
Qed.

Lemma reorder_keys_raise (k : string) (keys : list string) (order : list nat)
  (d : saved_state) (v : tensor4) (e : exn) :
  d !! k = Some v → index_select2 v order = Raise e →
  reorder_keys (k :: keys) order d = (d, Some e).
Proof. intros Hv Hsel. cbn [reorder_keys]. by rewrite Hv, Hsel. Qed.

(** X4: when the buffer is not empty and [new_order] holds an index that
    is not below the batch size of the buffered tensors, reordering raises
    [IndexError] at the first key and the container stays as it was. *)
Theorem reorder_index_out_of_range (self Ns B C : nat) (st : container) (d : saved_state)
  (new_order : list nat) :
  st !! (self, "repr_state") = Some d → d ≠ ∅ →
  (∀ k v, d !! k = Some v → ∃ T, (0 < T)%nat ∧ has_shape 4 [T; Ns; B; C] v) →
  (0 < Ns)%nat →
  Exists (λ i, (B ≤ i)%nat) new_order →
  reorder_incremental_state self (Some st) new_order = (Raise IndexError, Some st).
Proof.
  intros Hd Hne Hshape HNs Hbad.
  unfold reorder_incremental_state. rewrite _get_input_buffer_dict.
  unfold get_incremental_state. rewrite Hd. cbn [default from_option]. unfold Datatypes.id.
  destruct (map_to_list d) as [|[k v] l] eqn:Hl.
  { by apply map_to_list_empty_iff in Hl. }
  assert (Hv : d !! k = Some v).
  { apply elem_of_map_to_list. rewrite Hl. by left. }
  destruct (Hshape _ _ Hv) as (T & HT & Hsh).
  pose proof (index_select2_out_of_range T Ns B C v new_order Hsh HT HNs Hbad) as Hsel.
  match goal with
  | |- context [reorder_keys ?a ?b ?c] =>
      assert (E : reorder_keys a b c = (d, Some IndexError))
        by exact (reorder_keys_raise k l.*1 new_order d v IndexError Hv Hsel);
      rewrite E
  end.
  unfold _set_input_buffer, set_incremental_state. by rewrite insert_id.
Qed.

(** ** What a call does to the shared state *)

Lemma confined_set (self : nat) (st : option container) (d : saved_state) :
  confined self st (_set_input_buffer self st d).
Proof.
  destruct st as [st|]; [|done]. intros k Hk. by apply lookup_insert_ne.
Qed.

Lemma confined_refl (self : nat) (st : option container) : confined self st st.
Proof. by destruct st. Qed.

(** X5: the only effect of a target call on the shared state is the
    buffering done by [_prepare_repr], whatever the mask and whether or not
    the call raises afterwards; buffering and reordering change at most the
    entry of the instance itself, also when they raise. *)
Theorem state_effect_is_own_buffer (self : nat) (x : tensor4) (mask : option byte_mask)
  (new_order : list nat) (st : option container) :
  (max_reduce_tgt self x mask st).2 = (_prepare_repr self x st).2
  ∧ (softmax_reduce_tgt self x mask st).2 = (_prepare_repr self x st).2
  ∧ confined self st (_prepare_repr self x st).2
  ∧ confined self st (reorder_incremental_state self st new_order).2.
Proof.
  split; [|split; [|split]].
  - unfold max_reduce_tgt.
    destruct (_prepare_repr self x st) as [[b|e] st']; [|done]. by destruct mask.
  - unfold softmax_reduce_tgt.
    destruct (_prepare_repr self x st) as [[b|e] st']; [|done]. by destruct mask.
  - unfold _prepare_repr. destruct st as [st|]; [|done].
    rewrite _get_input_buffer_dict.
    match goal with
    | |- context [match ?c with Ok _ => _ | Raise _ => _ end] => destruct c as [y|e]
    end.
    + apply confined_set.
    + apply confined_refl.
  - unfold reorder_incremental_state. rewrite _get_input_buffer_dict.
    match goal with
    | |- context [reorder_keys ?a ?b ?c] => destruct (reorder_keys a b c) as [d' [e|]]
    end; apply confined_set.
Qed.

(** ** Buffering an input of another shape *)

Lemma shape_positive {A} (n : nat) (sh : list nat) (a : tensor A n) :
  has_shape n sh a → Forall (λ d, (0 < d)%nat) sh → shape n a = sh.
Proof.
  revert sh a. induction n as [|n IH]; intros sh a Ha Hpos; simpl in *; [done|].
  destruct sh as [|d sh]; [done|]. destruct Ha as [Hlen Hall].
  apply Forall_cons in Hpos as [Hd Hpos].
  change (tensor A (S n)) with (list (tensor A n)) in a.
  destruct a as [|r a]; [simpl in Hlen; lia|].
  apply Forall_cons in Hall as [Hr _]. f_equal; [exact Hlen|]. by apply IH.
Qed.

(** X6: when the buffered tensor and the new input disagree on the sizes of
    the axes after the first (none of them empty), [_prepare_repr] raises
    [RuntimeError] and so does every target call on that state; the state
    stays as it was. *)
Theorem prepare_repr_shape_mismatch (self T T' : nat) (sh sh' : list nat)
  (st : container) (prev x : tensor4) (mask : option byte_mask) :
  buffer self (Some st) = Some prev →
  has_shape 4 (T :: sh) prev → has_shape 4 (T' :: sh') x →
  (0 < T)%nat → (0 < T')%nat →
  Forall (λ d, (0 < d)%nat) sh → Forall (λ d, (0 < d)%nat) sh' → sh ≠ sh' →
  _prepare_repr self x (Some st) = (Raise RuntimeError, Some st)
  ∧ max_reduce_tgt self x mask (Some st) = (Raise RuntimeError, Some st)
  ∧ softmax_reduce_tgt self x mask (Some st) = (Raise RuntimeError, Some st).
Proof.
  intros Hbuf [HT Hprev] [HT' Hx] HT0 HT'0 Hpos Hpos' Hne.
  apply buffer_Some in Hbuf as (d & Hd & Hp).
  assert (Hcat : cat 3 prev x = Raise RuntimeError).
  { destruct prev as [|ra prev]; [simpl in HT; lia|].
    destruct x as [|rb x]; [simpl in HT'; lia|].
    apply Forall_cons in Hprev as [Hra _]. apply Forall_cons in Hx as [Hrb _].
    unfold cat. rewrite (shape_positive 3 sh ra Hra Hpos).
    rewrite (shape_positive 3 sh' rb Hrb Hpos'). by rewrite decide_False. }
  assert (Hprep : _prepare_repr self x (Some st) = (Raise RuntimeError, Some st)).
  { rewrite (_prepare_repr_next self st d prev x Hd Hp). by rewrite Hcat. }
  split; [done|]. unfold max_reduce_tgt, softmax_reduce_tgt. by rewrite Hprep.
Qed.

(** ** Construction *)




Lemma linear_mismatch (C d : nat) (W : tensor2) (n : nat) :
  has_shape 2 [d; d] W → (0 < d)%nat → C ≠ d →
  ∀ (sh : list nat) (x : tensor scalar (S n)),
  length sh = n → Forall (λ k, (0 < k)%nat) sh → has_shape (S n) (sh ++ [C]) x →
  linear n x W = Raise RuntimeError.
Proof.
  intros [HdW HW] Hd HC. induction n as [|n IH]; intros sh x Hlen Hpos Hx.
  - destruct sh; [|done]. destruct Hx as [Hx _]. cbn [linear].
    rewrite decide_False; [done|]. intros Hall.
    destruct W as [|row W]; [simpl in HdW; lia|].
    apply Forall_cons in Hall as [Hrow _]. apply Forall_cons in HW as [[Hrd _] _].
    apply HC. exact (eq_trans (eq_sym Hx) (eq_trans (eq_sym Hrow) Hrd)).
  - destruct sh as [|k sh]; [done|]. injection Hlen as Hlen.
    apply Forall_cons in Hpos as [Hk Hpos]. destruct Hx as [Hxl Hx].
    change (tensor scalar (S (S n))) with (list (tensor scalar (S n))) in x.
    destruct x as [|xi x]; [simpl in Hxl; lia|].
    apply Forall_cons in Hx as [Hxi _].
    change (linear (S n) (xi :: x) W)
      with (y ← linear n xi W; k ← mapM (λ xi, linear n xi W) x; mret (y :: k)).
    by rewrite (IH sh xi Hlen Hpos Hxi).
Qed.

(** X9: an "attn" source reducer whose weights are [d x d] raises
    [RuntimeError] on a non-empty input whose channel axis is not of size
    [d], and leaves the state alone. *)
Theorem attn_source_channel_mismatch (T S B C d : nat) (weights : tensor2) (x : tensor4)
  (mask : option byte_mask) (st : option container) :
  has_shape 2 [d; d] weights → (0 < d)%nat →
  has_shape 4 [T; S; B; C] x → (0 < T)%nat → (0 < S)%nat → (0 < B)%nat → C ≠ d →
  attn_reduce_src weights x mask st = (Raise RuntimeError, st).
Proof.
  intros HW Hd Hx HT HS HB HC.
  unfold attn_reduce_src, attn_prob.
  rewrite (linear_mismatch C d weights 3 HW Hd HC [T; S; B] x eq_refl); [done| |done].
  by repeat constructor.
Qed.

(** ** The source reducers without a mask *)

(** X10: without a mask, on an input [T x S x B x C] with a non-empty
    source axis, the "max" source reducer returns, for every [(t, b, c)],
    one of the entries [x[t, :, b, c]], and when none of them is NaN it is
    at least every one of them. *)
Theorem max_source_without_mask (T S B C : nat) (x : tensor4) (st : option container) :
  has_shape 4 [T; S; B; C] x → (0 < S)%nat →
  ∃ y : tensor3,
    max_reduce_src x None st = (Ok (mkTensor 3 y), st)
    ∧ has_shape 3 [T; B; C] y
    ∧ ∀ t b c, (t < T)%nat → (b < B)%nat → (c < C)%nat →
        ∃ xt col,
          x !! t = Some xt ∧ column 2 [b; c] xt = Some col ∧ length col = S
          ∧ tget 3 [t; b; c] y = Some (fmax_list col)
          ∧ fmax_list col ∈ col
          ∧ (Forall (λ a, is_nan a = false) col → Forall (λ a, fle a (fmax_list col)) col).
Proof.
  intros [HxT Hxrows] HS.
  destruct (max_dim1_rows 2 T S [B; C] x HxT) as (y & Hy & HyT & Hyrows & Hmax); [|done|].
  { eapply Forall_impl; [exact Hxrows|]. by intros ft [? ?]. }
  exists y. split; [|split].
  - unfold max_reduce_src. cbn [mbind result_bind]. by rewrite Hy.
  - by split.
  - intros t b c Ht Hb Hc.
    destruct (lookup_lt_is_Some_2 x t) as [xt Hxt]; [lt_len Ht HxT|].
    destruct (proj1 (Forall_lookup _ _) Hxrows _ _ Hxt) as [HxtS Hxs].
    destruct (column_has_shape 2 S [B; C] [b; c] xt Hxs) as (col & Hcol & Hlcol).
    { by repeat constructor. }
    destruct (Forall2_lookup_l _ _ _ _ _ Hmax Hxt) as (yt & Hyt & Hmaxt).
    pose proof (max_dim0_column 2 [b; c] _ yt _ Hcol Hmaxt) as Hget.
    assert (Hlen : length col = S) by exact (eq_trans Hlcol HxtS).
    exists xt, col. repeat split; try done.
    + change (tget 3 [t; b; c] y) with (y !! t ≫= tget 2 [b; c]). by rewrite Hyt.
    + apply fmax_list_elem. intros ->. simpl in Hlen. lia.
    + intros Hnan. by apply fmax_list_upper.
Qed.

Lemma zip_with_fst_id {A B} (f : A → B → A) (l : list A) (k : list B) :
  Forall2 (λ a b, f a b = a) l k → zip_with f l k = l.
Proof. induction 1 as [|a b l k Hab _ IH]; simpl; [done|]. by rewrite Hab, IH. Qed.

Lemma transpose_Forall {A} (P : A → Prop) (m : list (list A)) :
  Forall (Forall P) m → Forall (Forall P) (transpose m).
Proof.
  induction 1 as [|r rs Hr Hrs IH]; [done|].
  change (transpose (r :: rs))
    with (match rs with
          | [] => map (λ a, [a]) r
          | _ :: _ => zip_with cons r (transpose rs)
          end).
  destruct rs as [|r' rs].
  - apply Forall_fmap. eapply Forall_impl; [exact Hr|]. intros a Ha. by repeat constructor.
  - apply Forall_lookup. intros i l Hl.
    apply lookup_zip_with_Some in Hl as (a & t & -> & Ha & Ht).
    constructor.
    + by apply (proj1 (Forall_lookup _ _) Hr _ _ Ha).
    + by apply (proj1 (Forall_lookup _ _) IH _ _ Ht).
Qed.

Lemma filled_nothing (T Ns B C : nat) (x : tensor4) (mask : byte_mask) (v : scalar) :
  has_shape 4 [T; Ns; B; C] x → has_shape 2 [B; Ns] mask → (0 < B)%nat →
  Forall (Forall (λ m, m = false)) mask →
  filled v x (transpose mask) = x.
Proof.
  intros [_ Hx] [HB Hmask] HBpos Hfalse.
  destruct (transpose_shape B Ns mask) as [Hl Hrows]; [done| |done|].
  { eapply Forall_impl; [exact Hmask|]. by intros r [? _]. }
  pose proof (transpose_Forall _ mask Hfalse) as Htf.
  unfold filled. rewrite <- (list_fmap_id x) at 2.
  apply Forall_fmap_ext_1. eapply Forall_impl; [exact Hx|]. intros xt [Hxt Hxs].
  simpl. apply zip_with_fst_id.
  apply Forall2_same_length_lookup. split; [by rewrite Hl|].
  intros s xs tr Hs Htr.
  destruct (proj1 (Forall_lookup _ _) Hxs _ _ Hs) as [Hxl _].
  pose proof (proj1 (Forall_lookup _ _) Hrows _ _ Htr) as Htl.
  pose proof (proj1 (Forall_lookup _ _) Htf _ _ Htr) as Hf.
  apply zip_with_fst_id.
  apply Forall2_same_length_lookup. split; [exact (eq_trans Hxl (eq_sym Htl))|].
  intros b xb m _ Hm.
  rewrite (proj1 (Forall_lookup _ _) Hf _ _ Hm).
  apply list_fmap_id.
Qed.

Lemma linear_out_shape (C : nat) (W : tensor2) (n : nat) :
  ∀ (sh : list nat) (x y : tensor scalar (S n)),
  length sh = n → has_shape (S n) (sh ++ [C]) x → linear n x W = Ok y →
  has_shape (S n) (sh ++ [length W]) y.
Proof.
  induction n as [|k IH]; intros sh x y Hsh Hx Hy.
  - destruct sh; [|done]. simpl in Hy. case_decide; [|done]. injection Hy as <-.
    split; [by rewrite length_map|]. apply Forall_forall. by intros a _.
  - destruct sh as [|d sh]; [done|]. injection Hsh as Hsh.
    destruct Hx as [Hxl Hx].
    change (tensor scalar (S (S k))) with (list (tensor scalar (S k))) in x, y.
    change (mapM (λ xi, linear k xi W) x = Ok y) in Hy.
    apply mapM_Ok_inv in Hy. split.
    + exact (eq_trans (eq_sym (Forall2_length _ _ _ Hy)) Hxl).
    + apply Forall_lookup. intros i yi Hyi.
      destruct (Forall2_lookup_r _ _ _ _ _ Hy Hyi) as (xi & Hxi & Hlin).
      eapply (IH sh); [done| |exact Hlin].
      by apply (proj1 (Forall_lookup _ _) Hx _ _ Hxi).
Qed.

(** X11: a source mask of the right shape [B x S] that masks no position
    changes nothing: each of the three source reducers returns what it
    returns without a mask. *)
Theorem empty_mask_is_no_mask (T S B C : nat) (x : tensor4) (weights : tensor2)
  (mask : byte_mask) (st : option container) :
  has_shape 4 [T; S; B; C] x → has_shape 2 [B; S] mask → (0 < B)%nat →
  Forall (Forall (λ m, m = false)) mask →
  max_reduce_src x (Some mask) st = max_reduce_src x None st
  ∧ softmax_reduce_src x (Some mask) st = softmax_reduce_src x None st
  ∧ attn_reduce_src weights x (Some mask) st = attn_reduce_src weights x None st.
Proof.
  intros Hx Hmask HB Hfalse.
  assert (Hfill : ∀ (C' : nat) (w : tensor4), has_shape 4 [T; S; B; C'] w →
            masked_fill 4 w (expand_mask mask) NInf = Ok w).
  { intros C' w Hw. rewrite (masked_fill_expand_mask T S B C' w mask NInf Hw Hmask HB).
    by rewrite (filled_nothing T S B C' w mask NInf Hw Hmask HB Hfalse). }
  split; [|split].
  - unfold max_reduce_src. by rewrite (Hfill C x Hx).
  - unfold softmax_reduce_src, softmax_prob. by rewrite (Hfill C x Hx).
  - unfold attn_reduce_src, attn_prob.
    destruct (linear 3 x weights) as [w|e] eqn:Hlin; [|done].
    cbn [mbind result_bind].
    pose proof (linear_out_shape C weights 3 [T; S; B] x w eq_refl Hx Hlin) as Hw.
    by rewrite (Hfill (length weights) w Hw).
Qed.

(** ** The target reducers in training *)

Lemma Forall2_seq_prefix {B} (P P' : nat → B → Prop) (len n : nat) (out out' : list B) :
  Forall2 P (seq 0 len) out → Forall2 P' (seq 0 (n `min` len)) out' →
  (∀ k o o', (k < n `min` len)%nat → P k o → P' k o' → o' = o) →
  out' = take n out.
Proof.
  intros Hout Hout' Hfun.
  pose proof (Forall2_length _ _ _ Hout) as Hl. rewrite length_seq in Hl.
  pose proof (Forall2_length _ _ _ Hout') as Hl'. rewrite length_seq in Hl'.
  apply (list_eq_same_length _ _ (n `min` len)).
  - rewrite length_take. lia.
  - lia.
  - intros i o' o Hi Ho' Ho. apply lookup_take_Some in Ho as [Ho _].
    destruct (Forall2_lookup_r _ _ _ _ _ Hout Ho) as (k & Hk & HP).
    destruct (Forall2_lookup_r _ _ _ _ _ Hout' Ho') as (k' & Hk' & HP').
    apply lookup_seq in Hk as [-> _]. apply lookup_seq in Hk' as [-> _].
    simpl in *. by eapply Hfun.
Qed.

Lemma softmax_training_rows (self : nat) (sh : list nat) (x : tensor4) (m : byte_mask) :
  Forall (has_shape 3 sh) x →
  ∃ out : tensor4,
    softmax_reduce_tgt self x (Some m) None = (Ok (mkTensor 4 out), None)
    ∧ Forall2 (λ k o, match k with
                      | O => x !! 0%nat = Some o
                      | S _ => o = weighted_sum (take (S k) x)
                      end) (seq 0 (length x)) out.
Proof.
  intros Hx. destruct x as [|x0 xs].
  - exists []. split; [done|constructor].
  - apply Forall_cons in Hx as [Hx0 Hxs].
    set (sm := λ k, weighted_sum (take (S k) (x0 :: xs))).
    exists (x0 :: (sm <$> seq 1 (length xs))). split.
    + pose proof (softmax_train_loop sh x0 xs Hx0 Hxs (length xs) 0%nat) as Hloop.
      unfold softmax_reduce_tgt. cbn [_prepare_repr].
      match goal with
      | |- context [rfold ?f ?l ?b] =>
          assert (Hl : rfold f l b = Ok (x0 :: (sm <$> seq 1 (length xs))))
            by (cbn [length]; rewrite Nat.sub_succ, Nat.sub_0_r; exact Hloop);
          rewrite Hl
      end.
      done.
    + cbn [length seq]. constructor; [done|].
      apply Forall2_fmap_r, Forall_Forall2_diag, Forall_forall.
      intros k Hk. apply elem_of_seq in Hk. destruct k; [lia|done].
Qed.

(** X13: training is causal.  The first [n] steps that the "max" and the
    "softmax" target reducers return for an input are what they return for
    the first [n] steps of the input alone, whatever the masks. *)
Theorem training_is_causal (self : nat) (sh : list nat) (x : tensor4) (m m' : byte_mask)
  (n : nat) :
  Forall (has_shape 3 sh) x →
  (∃ out : tensor4,
     max_reduce_tgt self x (Some m) None = (Ok (mkTensor 4 out), None)
     ∧ max_reduce_tgt self (take n x) (Some m') None = (Ok (mkTensor 4 (take n out)), None))
  ∧ (∃ out : tensor4,
       softmax_reduce_tgt self x (Some m) None = (Ok (mkTensor 4 out), None)
       ∧ softmax_reduce_tgt self (take n x) (Some m') None
         = (Ok (mkTensor 4 (take n out)), None)).
Proof.
  intros Hx. assert (Hx' : Forall (has_shape 3 sh) (take n x)) by (by apply Forall_take).
  split.
  - destruct (max_training_matches_decoding self sh x m Hx) as (out & _ & Hout & _ & Hrows).
    destruct (max_training_matches_decoding self sh (take n x) m' Hx')
      as (out' & _ & Hout' & _ & Hrows').
    exists out. split; [done|]. rewrite Hout'. do 3 f_equal.
    rewrite length_take in Hrows'.
    eapply Forall2_seq_prefix; [exact Hrows|exact Hrows'|].
    intros k o o' Hk Ho Ho'. cbn beta in *.
    rewrite take_take in Ho'. rewrite Nat.min_l in Ho' by lia.
    rewrite Ho in Ho'. by injection Ho'.
  - destruct (softmax_training_rows self sh x m Hx) as (out & Hout & Hrows).
    destruct (softmax_training_rows self sh (take n x) m' Hx') as (out' & Hout' & Hrows').
    exists out. split; [done|]. rewrite Hout'. do 3 f_equal.
    rewrite length_take in Hrows'.
    eapply Forall2_seq_prefix; [exact Hrows|exact Hrows'|].
    intros k o o' Hk Ho Ho'. cbn beta in *. destruct k.
    + rewrite lookup_take_lt in Ho' by lia.
      assert (E : Some o = Some o') by exact (eq_trans (eq_sym Ho) Ho').
      by injection E.
    + rewrite take_take in Ho'. rewrite Nat.min_l in Ho' by lia. by subst.
Qed.

(** ** The target reducers in decoding *)

Lemma _prepare_repr_rows (self : nat) (sh : list nat) (st : container)
  (prev x : tensor4) :
  Forall (has_shape 3 sh) prev → Forall (has_shape 3 sh) x →
  buffer self (Some st) = Some prev ∨ (buffer self (Some st) = None ∧ prev = []) →
  ∃ st', _prepare_repr self x (Some st) = (Ok (prev ++ x), Some st')
    ∧ buffer self (Some st') = Some (prev ++ x).
Proof.
  intros Hprev Hx [Hbuf|[Hbuf ->]].
  - apply buffer_Some in Hbuf as (d & Hd & Hp).
    rewrite (_prepare_repr_next _ _ _ _ _ Hd Hp).
    rewrite (cat_rows 3 sh prev x) by done.
    eexists. split; [done|]. apply buffer_insert.
  - rewrite (_prepare_repr_first _ _ _ Hbuf).
    eexists. split; [done|]. apply buffer_insert.
Qed.

Lemma max_dim0_running (sh : list nat) (b : tensor4) :
  Forall (has_shape 3 sh) b → b ≠ [] →
  ∃ y : tensor3, max_dim0 3 b = Ok y ∧ has_shape 3 sh y
    ∧ ∀ p, Forall2 lt p sh →
        ∃ col, column 3 p b = Some col
          ∧ length col = length b
          ∧ tget 3 p y = Some (fmax_list col)
          ∧ fmax_list col ∈ col
          ∧ (Forall (λ a, is_nan a = false) col → Forall (λ a, fle a (fmax_list col)) col).
Proof.
  intros Hb Hne.
  destruct (has_shape_max_dim0 3 sh b Hb Hne) as (y & Hy & Hysh).
  exists y. split; [done|]. split; [done|].
  intros p Hp.
  destruct (column_has_shape 3 0 sh p b Hb Hp) as (col & Hcol & Hlen).
  exists col. split; [done|]. split; [done|]. split; [|split].
  - by eapply max_dim0_column.
  - apply fmax_list_elem. intros ->. destruct b; [done|]. simpl in Hlen. lia.
  - intros Hnan. by apply fmax_list_upper.
Qed.

Lemma max_decode_step (self : nat) (sh : list nat) (st : container)
  (prev x : tensor4) (y : tensor3) :
  Forall (has_shape 3 sh) prev → Forall (has_shape 3 sh) x →
  buffer self (Some st) = Some prev ∨ (buffer self (Some st) = None ∧ prev = []) →
  max_dim0 3 (prev ++ x) = Ok y →
  ∃ st' : container,
    max_reduce_tgt self x None (Some st) = (Ok (mkTensor 3 y), Some st')
    ∧ buffer self (Some st') = Some (prev ++ x).
Proof.
  intros Hprev Hx Hbuf Hy.
  destruct (_prepare_repr_rows self sh st prev x Hprev Hx Hbuf) as (st' & Hprep & Hbuf').
  exists st'. split; [|done].
  rewrite max_reduce_tgt_decode_step, Hprep. by rewrite Hy.
Qed.

(** X14: a decoding call of the "max" target reducer buffers its input
    after what is buffered and returns, at every position, the largest of
    all the entries buffered so far at that position: one of them, and at
    least every one of them when none is NaN. *)
Theorem max_decoding_is_running_max (self : nat) (sh : list nat) (st : container)
  (prev x : tensor4) :
  Forall (has_shape 3 sh) prev → Forall (has_shape 3 sh) x →
  buffer self (Some st) = Some prev ∨ (buffer self (Some st) = None ∧ prev = []) →
  prev ++ x ≠ [] →
  ∃ (y : tensor3) (st' : container),
    max_reduce_tgt self x None (Some st) = (Ok (mkTensor 3 y), Some st')
    ∧ buffer self (Some st') = Some (prev ++ x)
    ∧ has_shape 3 sh y
    ∧ ∀ p, Forall2 lt p sh →
        ∃ col, column 3 p (prev ++ x) = Some col
          ∧ length col = length (prev ++ x)
          ∧ tget 3 p y = Some (fmax_list col)
          ∧ fmax_list col ∈ col
          ∧ (Forall (λ a, is_nan a = false) col → Forall (λ a, fle a (fmax_list col)) col).
Proof.
  intros Hprev Hx Hbuf Hne.
  assert (Hb : Forall (has_shape 3 sh) (prev ++ x)) by (by apply Forall_app).
  destruct (max_dim0_running sh (prev ++ x) Hb Hne) as (y & Hy & Hysh & Hent).
  destruct (max_decode_step self sh st prev x y Hprev Hx Hbuf Hy) as (st' & Hcall & Hbuf').
  by exists y, st'.
Qed.

(** X15: on finite float32 numbers, a decoding call of the "softmax" target
    reducer buffers its input after what is buffered, passes its assertion
    and returns a tensor of the shape of one step that holds no NaN. *)
Theorem softmax_decoding_is_nan_free (self : nat) (sh : list nat) (st : container)
  (prev x : tensor4) :
  Forall (has_shape 3 sh) prev → Forall (has_shape 3 sh) x →
  tall is_float 4 prev → tall is_float 4 x →
  buffer self (Some st) = Some prev ∨ (buffer self (Some st) = None ∧ prev = []) →
  prev ++ x ≠ [] →
  ∃ (y : tensor3) (st' : container),
    softmax_reduce_tgt self x None (Some st) = (Ok (mkTensor 3 y), Some st')
    ∧ buffer self (Some st') = Some (prev ++ x)
    ∧ has_shape 3 sh y
    ∧ any_nan 3 y = false.
Proof.
  intros Hprev Hx Hpf Hxf Hbuf Hne.
  destruct (_prepare_repr_rows self sh st prev x Hprev Hx Hbuf) as (st' & Hprep & Hbuf').
  assert (Hb : Forall (has_shape 3 sh) (prev ++ x)) by (by apply Forall_app).
  assert (Hbf : Forall (tall is_float 3) (prev ++ x)) by (by apply Forall_app).
  set (b := prev ++ x) in *.
  destruct (softmax_floats_no_nan sh b Hb Hbf) as [Hnan Hy].
  exists (weighted_sum b), st'. split; [|split; [done|split; [|done]]].
  { rewrite softmax_reduce_tgt_decode_step, Hprep. by rewrite Hnan. }
  by apply has_shape_weighted_sum.
Qed.

(** X16: in training without a state, step [k] of what the "max" target
    reducer returns holds, at every position, the largest of the entries of
    the input steps [0 .. k] at that position: one of them, and at least
    every one of them when none is NaN. *)
Theorem max_training_is_running_max (self : nat) (sh : list nat) (x : tensor4)
  (m : byte_mask) :
  Forall (has_shape 3 sh) x →
  ∃ out : tensor4,
    max_reduce_tgt self x (Some m) None = (Ok (mkTensor 4 out), None)
    ∧ length out = length x
    ∧ ∀ k p, (k < length x)%nat → Forall2 lt p sh →
        ∃ col, column 3 p (take (S k) x) = Some col
          ∧ length col = S k
          ∧ tget 4 (k :: p) out = Some (fmax_list col)
          ∧ fmax_list col ∈ col
          ∧ (Forall (λ a, is_nan a = false) col → Forall (λ a, fle a (fmax_list col)) col).
Proof.
  intros Hx.
  destruct (max_training_matches_decoding self sh x m Hx) as (out & _ & Hout & _ & Hrows).
  exists out. split; [done|].
  pose proof (Forall2_length _ _ _ Hrows) as Hlen. rewrite length_seq in Hlen.
  split; [done|]. intros k p Hk Hp.
  destruct (Forall2_lookup_l _ _ _ _ _ Hrows (lookup_seq_lt 0 _ k Hk)) as (o & Ho & Hmax).
  simpl in Hmax.
  assert (Hb : Forall (has_shape 3 sh) (take (S k) x)) by (by apply Forall_take).
  destruct (max_dim0_running sh (take (S k) x) Hb) as (y & Hy & _ & Hent).
  { destruct x; [simpl in Hk; lia|done]. }
  rewrite Hy in Hmax. injection Hmax as ->.
  destruct (Hent p Hp) as (col & Hcol & Hcl & Hget & Hin & Hup).
  exists col. split; [done|]. split; [|split; [|done]].
  - rewrite Hcl, length_take. lia.
  - exact (eq_trans (f_equal (λ q : option tensor3, q ≫= tget 3 p) Ho) Hget).
Qed.

(** ** Reordering between two decoding steps *)

Lemma column_app {A} (n : nat) (p : list nat) (a b : list (tensor A n)) (ca cb : list A) :
  column n p a = Some ca → column n p b = Some cb →
  column n p (a ++ b) = Some (ca ++ cb).
Proof.
  unfold column. rewrite !mapM_Some. apply Forall2_app.
Qed.

Lemma column_batch_select (Ns B C : nat) (prev : tensor4) (order : list nat)
  (s j c i : nat) :
  Forall (has_shape 3 [Ns; B; C]) prev → Forall (λ i, (i < B)%nat) order →
  order !! j = Some i →
  column 3 [s; j; c] (batch_select prev order) = column 3 [s; i; c] prev.
Proof.
  intros Hprev Horder Hj. unfold column.
  induction Hprev as [|r rs Hr _ IH]; [done|].
  assert (Hrow : tget 3 [s; j; c] (map (λ xs : tensor2, omap (λ i, xs !! i) order) r)
                 = tget 3 [s; i; c] r).
  { apply (batch_select_entry 1 Ns B C [r] order 0 s j c i); [|done|done].
    split; [done|]. constructor; [exact Hr|constructor]. }
  change (batch_select (r :: rs) order)
    with (map (λ xs : tensor2, omap (λ i, xs !! i) order) r :: batch_select rs order).
  change (mapM ?f (?a :: ?l)) with (y ← f a; k ← mapM f l; mret (y :: k)).
  by rewrite Hrow, IH.
Qed.

(** X18: a reordering followed by a decoding call of the "max" target
    reducer.  When the buffer [prev] is reordered by [new_order] and a step
    [x] with one batch row per index of [new_order] is decoded, batch row
    [j] of the result holds the largest entry of the history of the old
    batch row [new_order[j]] and of row [j] of [x]. *)
Theorem reorder_then_max_decoding (self Ns B C : nat) (st : container) (d : saved_state)
  (prev x : tensor4) (new_order : list nat) :
  st !! (self, "repr_state") = Some d → d !! "prev_repr" = Some prev →
  (∀ k v, d !! k = Some v → ∃ T, has_shape 4 [T; Ns; B; C] v) →
  Forall (λ i, (i < B)%nat) new_order →
  Forall (has_shape 3 [Ns; length new_order; C]) x → x ≠ [] →
  ∃ (st1 : container) (y : tensor3) (st2 : container),
    reorder_incremental_state self (Some st) new_order = (Ok (), Some st1)
    ∧ max_reduce_tgt self x None (Some st1) = (Ok (mkTensor 3 y), Some st2)
    ∧ buffer self (Some st2) = Some (batch_select prev new_order ++ x)
    ∧ ∀ s j c i, (s < Ns)%nat → (c < C)%nat → new_order !! j = Some i →
        ∃ colp colx, column 3 [s; i; c] prev = Some colp
          ∧ column 3 [s; j; c] x = Some colx
          ∧ tget 3 [s; j; c] y = Some (fmax_list (colp ++ colx))
          ∧ fmax_list (colp ++ colx) ∈ colp ++ colx
          ∧ (Forall (λ a, is_nan a = false) (colp ++ colx) →
               Forall (λ a, fle a (fmax_list (colp ++ colx))) (colp ++ colx)).
Proof.
  intros Hd Hp Hshape Horder Hx Hne.
  set (key := (self, "repr_state")).
  set (st1 := <[key := (λ v, batch_select v new_order) <$> d]> st).
  destruct (Hshape _ _ Hp) as [T [HT Hprev]].
  destruct (index_select2_ok T Ns B C prev new_order (conj HT Hprev) Horder)
    as [_ [_ Hbp]].
  assert (Hbuf : buffer self (Some st1) = Some (batch_select prev new_order)).
  { apply buffer_Some. exists ((λ v, batch_select v new_order) <$> d).
    split; [apply lookup_insert_eq|]. by rewrite lookup_fmap, Hp. }
  assert (Hb : Forall (has_shape 3 [Ns; length new_order; C])
                 (batch_select prev new_order ++ x)) by (by apply Forall_app).
  destruct (max_dim0_running _ (batch_select prev new_order ++ x) Hb)
    as (y & Hy & _ & Hent).
  { intros Hnil. by apply app_eq_nil in Hnil as [_ ?]. }
  destruct (max_decode_step self _ st1 _ x y Hbp Hx (or_introl Hbuf) Hy)
    as (st2 & Hcall & Hbuf2).
  exists st1, y, st2.
  split; [by eapply reorder_with_buffer|]. split; [done|]. split; [done|].
  intros s j c i Hs Hc Hj.
  assert (Hi : (i < B)%nat) by (by apply (proj1 (Forall_lookup _ _) Horder _ _ Hj)).
  assert (Hjl : (j < length new_order)%nat) by (by eapply lookup_lt_Some).
  destruct (column_has_shape 3 0 [Ns; B; C] [s; i; c] prev Hprev) as (colp & Hcolp & _).
  { by repeat constructor. }
  destruct (column_has_shape 3 0 [Ns; length new_order; C] [s; j; c] x Hx)
    as (colx & Hcolx & _).
  { by repeat constructor. }
  exists colp, colx. split; [done|]. split; [done|].
  destruct (Hent [s; j; c]) as (col & Hcol & _ & Hget & Hin & Hup);
    [by repeat constructor|].
  pose proof (column_batch_select Ns B C prev new_order s j c i Hprev Horder Hj) as Hsel.
  rewrite Hcolp in Hsel.
  pose proof (column_app 3 [s; j; c] _ x colp colx Hsel Hcolx) as Happ.
  assert (E : Some (colp ++ colx) = Some col) by exact (eq_trans (eq_sym Happ) Hcol).
  injection E as <-. done.
Qed.

End Properties.

(** * The properties at concrete inputs *)

(** The inputs below are evaluated in the arithmetic of the reals, which
    obeys the laws: every finite entry is then a float32 number. *)
#[local] Existing Instance ideal.

#[local] Instance ideal_IEEE : IEEE ideal.
Proof.
  split.
  - done.
  - intros r r' Hr. exact Hr.
  - by intros r r' [= ->].
  - done.
  - done.
  - simpl. by rewrite exp_0.
  - intros r Hr. simpl. split; [|done]. split; [left; apply exp_pos|].
    destruct Hr as [Hr| ->]; [|rewrite exp_0; lra].
    left. rewrite <- exp_0. by apply exp_increasing.
Qed.


Lemma unregistered_method_fails_at_construction_witness :
  VALID_REDUCER !! "mean" = None
  ∧ __init__ 0 "mean" true {| flags := None; normal_ := λ _ _, 0 |} = Raise KeyError.
Proof.
  assert (H : VALID_REDUCER !! "mean" = None) by (by rewrite VALID_REDUCER_lookup).
  split; [exact H|].
  exact (proj1 (unregistered_method_fails_at_construction
                  0 "mean" true {| flags := None; normal_ := λ _ _, 0 |} H)).
Defined.

Lemma attn_target_always_fails_witness :
  let args := {| flags := Some {| decoder_model_dim := 1 |}; normal_ := λ _ _, 0 |} in
  ∃ inst, __init__ 0 "attn" false args = Ok inst
    ∧ forward inst [[[[Fin 1]]]] None (Some ∅) = (Raise NotImplementedError, Some ∅).
Proof.
  intros args. eexists. split; [reflexivity|].
  eapply (attn_target_always_fails 0 args). reflexivity.
Defined.

Lemma prepare_repr_accumulates_witness :
  let x0 : tensor4 := [[[[Fin 1]]]] in
  let x1 : tensor4 := [[[[Fin 2]]]] in
  ∃ st', prepare_all 0 [x0; x1] (Some ∅) = (Ok [x0; x0 ++ x1], Some st')
    ∧ buffer 0 (Some st') = Some [[[[Fin 1]]]; [[[Fin 2]]]]
    ∧ length (x0 ++ x1) = 2%nat.
Proof.
  intros x0 x1.
  destruct (proj2 (proj2 (prepare_repr_accumulates 0 ∅)) 1%nat 1%nat 1%nat x0 [x1])
    as (st' & H1 & H2 & H3).
  - reflexivity.
  - repeat constructor.
  - exists st'. split; [exact H1|]. split; [exact H2|exact H3].
Defined.



Lemma max_source_respects_mask_witness :
  let x : tensor4 := [[[[Fin 1]]; [[Fin 5]]]] in
  let mask : byte_mask := [[false; true]] in
  ∃ y : tensor3,
    max_reduce_src x (Some mask) None = (Ok (mkTensor 3 y), None)
    ∧ tget 3 [0; 0; 0]%nat y = Some (fmax_list [Fin 1]).
Proof.
  intros x mask.
  destruct (max_source_respects_mask 1 2 1 1 x mask None) as (y & Hy & _ & Hget).
  - simpl. repeat constructor.
  - simpl. repeat constructor.
  - lia.
  - lia.
  - exists y. split; [exact Hy|].
    destruct (Hget 0 0 0)%nat as (xt & row & col & Hxt & Hrow & Hcol & _ & Hval & _);
      [lia|lia|lia|].
    injection Hxt as <-. injection Hrow as <-. injection Hcol as <-. exact Hval.
Defined.





(** A mask with more batch rows than the input: [masked_fill] repeats the
    input along the batch axis, and the result has the batch size of the
    mask. *)
Lemma source_mask_broadcasts_input :
  max_reduce_src [[[[Fin 1]]]] (Some [[true]; [false]]) None
  = (Ok (mkTensor 3 [[[NInf]; [Fin 1]]]), None).
Proof. reflexivity. Qed.

Lemma reorder_permutes_batch_witness :
  let prev : tensor4 := [[[[Fin 1]; [Fin 2]]]] in
  let st : container := {[ (0%nat, "repr_state") := {[ "prev_repr" := prev ]} ]} in
  ∃ (st' : container) (d' : saved_state),
    reorder_incremental_state 0 (Some st) [1; 0]%nat = (Ok (), Some st')
    ∧ st' !! (0%nat, "repr_state") = Some d'
    ∧ ∃ v' : tensor4, d' !! "prev_repr" = Some v'
        ∧ tget 4 [0; 0; 0; 0]%nat v' = tget 4 [0; 0; 1; 0]%nat prev.
Proof.
  intros prev st.
  destruct (reorder_permutes_batch 0 1 2 1 st {[ "prev_repr" := prev ]} [1; 0]%nat)
    as (st' & d' & Hre & Hd' & _ & Hvals).
  - apply lookup_singleton_eq.
  - intros k v Hkv. apply lookup_singleton_Some in Hkv as [_ <-].
    exists 1%nat. simpl. repeat constructor.
  - repeat constructor.
  - exists st', d'. split; [exact Hre|]. split; [exact Hd'|].
    destruct (Hvals "prev_repr" prev) as (v' & Hv' & _ & _ & Hent);
      [apply lookup_singleton_eq|].
    exists v'. split; [exact Hv'|]. by apply (Hent 0 0 0 0 1)%nat.
Defined.

Lemma reorder_identity_witness :
  let prev : tensor4 := [[[[Fin 1]; [Fin 2]]]] in
  let st : container := {[ (0%nat, "repr_state") := {[ "prev_repr" := prev ]} ]} in
  reorder_incremental_state 0 (Some st) (seq 0 2) = (Ok (), Some st).
Proof.
  intros prev st.
  apply (reorder_identity 0 1 2 1 st {[ "prev_repr" := prev ]}).
  - apply lookup_singleton_eq.
  - intros k v Hv. apply lookup_singleton_Some in Hv as [_ <-].
    exists 1%nat. repeat constructor.
Defined.

Lemma reorder_composes_witness :
  let prev : tensor4 := [[[[Fin 1]; [Fin 2]]]] in
  let st : container := {[ (0%nat, "repr_state") := {[ "prev_repr" := prev ]} ]} in
  ∃ st1 st2 : container,
    reorder_incremental_state 0 (Some st) [1; 0]%nat = (Ok (), Some st1)
    ∧ reorder_incremental_state 0 (Some st1) [1; 1; 0]%nat = (Ok (), Some st2)
    ∧ reorder_incremental_state 0 (Some st) [0; 0; 1]%nat = (Ok (), Some st2).
Proof.
  intros prev st.
  apply (reorder_composes 0 1 2 1 st {[ "prev_repr" := prev ]} [1; 0]%nat [1; 1; 0]%nat).
  - apply lookup_singleton_eq.
  - intros k v Hv. apply lookup_singleton_Some in Hv as [_ <-].
    exists 1%nat. repeat constructor.
  - repeat constructor.
  - repeat constructor.
Defined.

Lemma reorder_index_out_of_range_witness :
  let prev : tensor4 := [[[[Fin 1]; [Fin 2]]]] in
  let st : container := {[ (0%nat, "repr_state") := {[ "prev_repr" := prev ]} ]} in
  reorder_incremental_state 0 (Some st) [0; 2]%nat = (Raise IndexError, Some st).
Proof.
  intros prev st.
  apply (reorder_index_out_of_range 0 1 2 1 st {[ "prev_repr" := prev ]}).
  - apply lookup_singleton_eq.
  - apply insert_non_empty.
  - intros k v Hv. apply lookup_singleton_Some in Hv as [_ <-].
    exists 1%nat. split; [lia|]. repeat constructor.
  - lia.
  - right. left. lia.
Defined.

Lemma prepare_repr_shape_mismatch_witness :
  let prev : tensor4 := [[[[Fin 1]; [Fin 2]]]] in
  let x : tensor4 := [[[[Fin 3]]]] in
  let st : container := {[ (0%nat, "repr_state") := {[ "prev_repr" := prev ]} ]} in
  _prepare_repr 0 x (Some st) = (Raise RuntimeError, Some st)
  ∧ max_reduce_tgt 0 x None (Some st) = (Raise RuntimeError, Some st)
  ∧ softmax_reduce_tgt 0 x None (Some st) = (Raise RuntimeError, Some st).
Proof.
  intros prev x st.
  apply (prepare_repr_shape_mismatch 0 1 1 [1; 2; 1]%nat [1; 1; 1]%nat st prev x None).
  - reflexivity.
  - repeat constructor.
  - repeat constructor.
  - lia.
  - lia.
  - repeat constructor.
  - repeat constructor.
  - discriminate.
Defined.



Lemma attn_source_channel_mismatch_witness :
  attn_reduce_src [[Fin 1]] [[[[Fin 1; Fin 2]]]] None None = (Raise RuntimeError, None).
Proof.
  apply (attn_source_channel_mismatch 1 1 1 2 1); try lia; repeat constructor.
Defined.

Lemma max_source_without_mask_witness :
  let x : tensor4 := [[[[Fin 1]]; [[Fin 5]]]] in
  ∃ y : tensor3,
    max_reduce_src x None None = (Ok (mkTensor 3 y), None)
    ∧ has_shape 3 [1; 1; 1]%nat y.
Proof.
  intros x.
  destruct (max_source_without_mask 1 2 1 1 x None) as (y & Hy & Hsh & _).
  - repeat constructor.
  - lia.
  - by exists y.
Defined.

Lemma empty_mask_is_no_mask_witness :
  let x : tensor4 := [[[[Fin 1]]; [[Fin 5]]]] in
  max_reduce_src x (Some [[false; false]]) None = max_reduce_src x None None
  ∧ softmax_reduce_src x (Some [[false; false]]) None = softmax_reduce_src x None None
  ∧ attn_reduce_src [[Fin 1]] x (Some [[false; false]]) None
    = attn_reduce_src [[Fin 1]] x None None.
Proof.
  intros x. apply (empty_mask_is_no_mask 1 2 1 1); try lia; repeat constructor.
Defined.

Lemma training_is_causal_witness :
  let x : tensor4 := [[[[Fin 1]]]; [[[Fin 3]]]; [[[Fin 2]]]] in
  ∃ out : tensor4,
    max_reduce_tgt 0 x (Some []) None = (Ok (mkTensor 4 out), None)
    ∧ max_reduce_tgt 0 (take 2 x) (Some []) None = (Ok (mkTensor 4 (take 2 out)), None).
Proof.
  intros x.
  apply (proj1 (training_is_causal 0 [1; 1; 1]%nat x [] [] 2 ltac:(repeat constructor))).
Defined.

Lemma max_decoding_is_running_max_witness :
  let prev : tensor4 := [[[[Fin 4]]]] in
  let x : tensor4 := [[[[Fin 1]]]] in
  let st : container := {[ (0%nat, "repr_state") := {[ "prev_repr" := prev ]} ]} in
  ∃ (y : tensor3) (st' : container),
    max_reduce_tgt 0 x None (Some st) = (Ok (mkTensor 3 y), Some st')
    ∧ buffer 0 (Some st') = Some (prev ++ x)
    ∧ tget 3 [0; 0; 0]%nat y = Some (Fin 4).
Proof.
  intros prev x st.
  destruct (max_decoding_is_running_max 0 [1; 1; 1]%nat st prev x)
    as (y & st' & Hy & Hbuf & _ & Hent).
  - repeat constructor.
  - repeat constructor.
  - by left.
  - done.
  - exists y, st'. split; [done|]. split; [done|].
    destruct (Hent [0; 0; 0]%nat) as (col & Hcol & _ & Hget & _); [repeat constructor|].
    injection Hcol as <-. rewrite Hget. f_equal. simpl. f_equal.
    unfold Rmax. destruct (Rle_dec 4 1); [lra|done].
Defined.

Lemma softmax_decoding_is_nan_free_witness :
  let prev : tensor4 := [[[[Fin 4]]]] in
  let x : tensor4 := [[[[Fin 1]]]] in
  let st : container := {[ (0%nat, "repr_state") := {[ "prev_repr" := prev ]} ]} in
  ∃ (y : tensor3) (st' : container),
    softmax_reduce_tgt 0 x None (Some st) = (Ok (mkTensor 3 y), Some st')
    ∧ buffer 0 (Some st') = Some (prev ++ x)
    ∧ any_nan 3 y = false.
Proof.
  intros prev x st.
  destruct (softmax_decoding_is_nan_free 0 [1; 1; 1]%nat st prev x)
    as (y & st' & Hy & Hbuf & _ & Hnan).
  - repeat constructor.
  - repeat constructor.
  - repeat constructor.
  - repeat constructor.
  - left. reflexivity.
  - discriminate.
  - exists y, st'. split; [exact Hy|]. split; [exact Hbuf|exact Hnan].
Defined.

Lemma max_training_is_running_max_witness :
  let x : tensor4 := [[[[Fin 1]]]; [[[Fin 3]]]; [[[Fin 2]]]] in
  ∃ out : tensor4,
    max_reduce_tgt 0 x (Some []) None = (Ok (mkTensor 4 out), None)
    ∧ length out = 3%nat.
Proof.
  intros x.
  destruct (max_training_is_running_max 0 [1; 1; 1]%nat x [])
    as (out & Hout & Hlen & _); [repeat constructor|].
  by exists out.
Defined.

Lemma reorder_then_max_decoding_witness :
  let prev : tensor4 := [[[[Fin 1]; [Fin 7]]]] in
  let x : tensor4 := [[[[Fin 3]; [Fin 4]]]] in
  let st : container := {[ (0%nat, "repr_state") := {[ "prev_repr" := prev ]} ]} in
  ∃ (st1 : container) (y : tensor3) (st2 : container),
    reorder_incremental_state 0 (Some st) [1; 1]%nat = (Ok (), Some st1)
    ∧ max_reduce_tgt 0 x None (Some st1) = (Ok (mkTensor 3 y), Some st2)
    ∧ tget 3 [0; 0; 0]%nat y = Some (fmax_list [Fin 7; Fin 3]).
Proof.
  intros prev x st.
  destruct (reorder_then_max_decoding 0 1 2 1 st {[ "prev_repr" := prev ]} prev x
              [1; 1]%nat)
    as (st1 & y & st2 & Hre & Hcall & _ & Hent).
  - apply lookup_singleton_eq.
  - apply lookup_singleton_eq.
  - intros k v Hv. apply lookup_singleton_Some in Hv as [_ <-].
    exists 1%nat. repeat constructor.
  - repeat constructor.
  - repeat constructor.
  - done.
  - exists st1, y, st2. split; [done|]. split; [done|].
    destruct (Hent 0 0 0 1)%nat as (colp & colx & Hcolp & Hcolx & Hget & _);
      [lia|lia|done|].
    injection Hcolp as <-. injection Hcolx as <-. exact Hget.
Defined.
